(** * xcloud-listener: the native messaging host, embedded and verified

    A shallow embedding of [xcloud-listener/src/main.go].  The program
    speaks the browser native-messaging wire format on its standard
    streams (a 4-byte length in native byte order, then a JSON payload)
    and has an HTTP endpoint that pushes a message through the same
    [send] routine.

    Layout of the development:
    - the Go library routines the program calls ([encoding/binary],
      [unicode/utf8], [encoding/json], [bufio], [os], [log], [io/ioutil]),
      each in a module named after its package and restricted to the
      types the program instantiates them at;
    - the program itself, one definition per Go function, same names;
    - the properties.

    Conventions.  Go [string] is [string]; [[]byte] is [list byte];
    [int] is the 64-bit [int] of the usual targets, held in [Z];
    [uint32] is a [Z] in [[0, 2^32)], conversions to it reduce modulo
    [2^32].  Writes to the standard output are taken to succeed, so the
    branches of the program that only log a failed write are never
    entered. *)

From Stdlib Require Import ZArith List Bool Lia.
From Stdlib Require Import Strings.Byte Strings.Ascii Strings.String.
Import ListNotations.

Local Open Scope Z_scope.

(** [length] is the length of a list throughout; that of a string is
    written [String.length]. *)
Abbreviation length := List.length (only parsing).

(* ================================================================== *)
(** * Bytes *)

(** Go's conversion [byte(v)] of an integer: the low eight bits. *)
Definition byte_of_Z (z : Z) : byte :=
  match Byte.of_N (Z.to_N (z mod 256)) with
  | Some b => b
  | None => x00
  end.

(** Go's conversion of a byte to a wider unsigned integer. *)
Definition Z_of_byte (b : byte) : Z := Z.of_N (Byte.to_N b).

(** Comparison of bytes as unsigned numbers, as Go compares them. *)
Definition byte_le (a b : byte) : bool := Z_of_byte a <=? Z_of_byte b.
Definition byte_lt (a b : byte) : bool := Z_of_byte a <? Z_of_byte b.
Definition byte_in (lo hi c : byte) : bool := byte_le lo c && byte_le c hi.

(** [make([]byte, n)]: [n] zero bytes. *)
Definition make (n : Z) : list byte := repeat x00 (Z.to_nat n).

(** [len] of a slice, as an [int]. *)
Definition len {A} (l : list A) : Z := Z.of_nat (length l).

(** [copy(dst, src)] for slices: the first [min(len dst, len src)]
    elements of [dst] are overwritten, the others stay. *)
Definition copy (dst src : list byte) : list byte :=
  firstn (length dst) src ++ skipn (length src) dst.

(* ================================================================== *)
(** * encoding/binary: the two byte orders at [uint32] *)

Module binary.

Inductive ByteOrder := LittleEndian | BigEndian.

(** [ByteOrder.PutUint32]. *)
Definition PutUint32 (order : ByteOrder) (v : Z) : list byte :=
  match order with
  | LittleEndian =>
      [byte_of_Z v; byte_of_Z (Z.shiftr v 8);
       byte_of_Z (Z.shiftr v 16); byte_of_Z (Z.shiftr v 24)]
  | BigEndian =>
      [byte_of_Z (Z.shiftr v 24); byte_of_Z (Z.shiftr v 16);
       byte_of_Z (Z.shiftr v 8); byte_of_Z v]
  end.

(** [ByteOrder.Uint32] on a slice of at least four bytes. *)
Definition Uint32 (order : ByteOrder) (b : list byte) : Z :=
  let at_ i := Z_of_byte (nth i b x00) in
  match order with
  | LittleEndian =>
      Z.lor (Z.lor (Z.lor (at_ 0%nat) (Z.shiftl (at_ 1%nat) 8))
                   (Z.shiftl (at_ 2%nat) 16))
            (Z.shiftl (at_ 3%nat) 24)
  | BigEndian =>
      Z.lor (Z.lor (Z.lor (at_ 3%nat) (Z.shiftl (at_ 2%nat) 8))
                   (Z.shiftl (at_ 1%nat) 16))
            (Z.shiftl (at_ 0%nat) 24)
  end.

(** The two errors [binary.Read] passes on from [io.ReadFull]. *)
Inductive error := EOF | ErrUnexpectedEOF.

(** [binary.Read(r, order, &x)] for [x] a [uint32] and [r] a
    [bytes.Buffer] holding [b]: four bytes are taken; with fewer the
    target is left alone and the error is returned. *)
Definition Read (b : list byte) (order : ByteOrder) (x : Z)
  : Z * option error :=
  match b with
  | [] => (x, Some EOF)
  | _ =>
      if (length b <? 4)%nat then (x, Some ErrUnexpectedEOF)
      else (Uint32 order (firstn 4 b), None)
  end.

(** The bytes [binary.Write(w, order, x)] hands to [w] for a [uint32]. *)
Definition Write (order : ByteOrder) (x : Z) : list byte :=
  PutUint32 order x.

End binary.

(** Go's conversion [uint32(n)] of an [int]. *)
Definition uint32 (n : Z) : Z := n mod 2 ^ 32.

(* ------------------------------------------------------------------ *)
(** ** Facts on bytes and byte orders *)

Lemma Z_of_byte_range (b : byte) : 0 <= Z_of_byte b < 256.
Proof.
  unfold Z_of_byte. pose proof (Byte.to_N_bounded b). lia.
Qed.

Lemma Z_of_byte_of_Z (z : Z) : Z_of_byte (byte_of_Z z) = z mod 256.
Proof.
  unfold Z_of_byte, byte_of_Z.
  assert (Hr : 0 <= z mod 256 < 256) by (apply Z.mod_pos_bound; lia).
  destruct (Byte.of_N (Z.to_N (z mod 256))) as [b|] eqn:E.
  - apply Byte.to_of_N in E. rewrite E. lia.
  - apply Byte.of_N_None_iff in E. lia.
Qed.

Lemma byte_of_Z_of_byte (b : byte) : byte_of_Z (Z_of_byte b) = b.
Proof.
  unfold byte_of_Z, Z_of_byte.
  pose proof (Byte.to_N_bounded b) as Hb.
  rewrite Z.mod_small by lia.
  rewrite N2Z.id, Byte.of_to_N. reflexivity.
Qed.

(** The bits of the byte taken at offset [k] and put back there. *)
Lemma byte_at_bits (n k i : Z) :
  0 <= k -> 0 <= i ->
  Z.testbit (Z.shiftl (Z.shiftr n k mod 2 ^ 8) k) i
  = (k <=? i) && (i <? k + 8) && Z.testbit n i.
Proof.
  intros Hk Hi.
  destruct (Z.leb_spec k i) as [Hki|Hki]; cbn [andb].
  - rewrite Z.shiftl_spec, Z.testbit_mod_pow2, Z.shiftr_spec by lia.
    replace (i - k + k) with i by lia.
    destruct (Z.ltb_spec (i - k) 8), (Z.ltb_spec i (k + 8));
      try lia; reflexivity.
  - rewrite Z.shiftl_spec by lia. apply Z.testbit_neg_r. lia.
Qed.

(** Reassembling the four bytes of a 32-bit value. *)
Lemma assemble_uint32 (n : Z) :
  0 <= n < 2 ^ 32 ->
  Z.lor (Z.lor (Z.lor (n mod 256) (Z.shiftl (Z.shiftr n 8 mod 256) 8))
               (Z.shiftl (Z.shiftr n 16 mod 256) 16))
        (Z.shiftl (Z.shiftr n 24 mod 256) 24) = n.
Proof.
  intros Hn.
  assert (Hhigh : forall i, 32 <= i -> Z.testbit n i = false).
  { intros i Hi. rewrite <- (Z.mod_small n (2 ^ 32)) by lia.
    rewrite Z.testbit_mod_pow2 by lia.
    destruct (Z.ltb_spec i 32); [lia | reflexivity]. }
  apply Z.bits_inj'. intros i Hi.
  change 256 with (2 ^ 8).
  rewrite !Z.lor_spec, !byte_at_bits by lia.
  rewrite Z.testbit_mod_pow2 by lia.
  destruct (Z.le_gt_cases 32 i) as [H32|H32].
  { rewrite (Hhigh i H32), !andb_false_r. reflexivity. }
  destruct (Z.ltb_spec i 8), (Z.leb_spec 8 i), (Z.ltb_spec i (8 + 8)),
    (Z.leb_spec 16 i), (Z.ltb_spec i (16 + 8)), (Z.leb_spec 24 i),
    (Z.ltb_spec i (24 + 8)); try lia; cbn [andb orb];
    rewrite ?orb_false_r; reflexivity.
Qed.

Lemma Uint32_PutUint32 (order : binary.ByteOrder) (n : Z) :
  0 <= n < 2 ^ 32 ->
  binary.Uint32 order (binary.PutUint32 order n) = n.
Proof.
  intros Hn.
  destruct order; unfold binary.Uint32, binary.PutUint32; cbn [nth];
    rewrite !Z_of_byte_of_Z; apply assemble_uint32; exact Hn.
Qed.

Lemma PutUint32_length (order : binary.ByteOrder) (n : Z) :
  length (binary.PutUint32 order n) = 4%nat.
Proof. destruct order; reflexivity. Qed.

Lemma uint32_range (n : Z) : 0 <= uint32 n < 2 ^ 32.
Proof. unfold uint32. apply Z.mod_pos_bound. lia. Qed.

(* ================================================================== *)
(** * The messages of the program *)

(** [IncomingMessage]: a message sent to the native host. *)
Record IncomingMessage := { iQuery : string }.

(** [OutgoingMessage]: a response to an incoming message query. *)
Record OutgoingMessage := { Query : string; Response : string }.

(** The zero value a [var iMsg IncomingMessage] starts from. *)
Definition zeroIncomingMessage : IncomingMessage := {| iQuery := EmptyString |}.

(* ================================================================== *)
(** * unicode/utf8 and unicode/utf16 *)

Local Infix "==" := Byte.eqb (at level 70, no associativity).

Module utf8.

Definition RuneError : Z := 65533.   (* U+FFFD *)
Definition RuneSelf : Z := 128.
Definition MaxRune : Z := 1114111.   (* U+10FFFF *)

(** [utf8.DecodeRune]: the rune at the head of [p] and its width.  The
    three range tests on the first byte are the table [first] of the
    library, [lo]..[hi] the entry of [acceptRanges] it selects. *)
Definition DecodeRune (p : list byte) : Z * nat :=
  match p with
  | [] => (RuneError, 0%nat)
  | p0 :: rest =>
      let c0 := Z_of_byte p0 in
      if c0 <? 128 then (c0, 1%nat)
      else if (c0 <? 194) || (244 <? c0) then (RuneError, 1%nat)
      else
        let sz := if c0 <? 224 then 2%nat else if c0 <? 240 then 3%nat else 4%nat in
        let lo := if c0 =? 224 then 160 else if c0 =? 240 then 144 else 128 in
        let hi := if c0 =? 237 then 159 else if c0 =? 244 then 143 else 191 in
        if (length p <? sz)%nat then (RuneError, 1%nat)
        else
          let b1 := Z_of_byte (nth 0 rest x00) in
          if (b1 <? lo) || (hi <? b1) then (RuneError, 1%nat)
          else if (sz <=? 2)%nat then
            (Z.lor (Z.shiftl (Z.land c0 31) 6) (Z.land b1 63), 2%nat)
          else
            let b2 := Z_of_byte (nth 1 rest x00) in
            if (b2 <? 128) || (191 <? b2) then (RuneError, 1%nat)
            else if (sz <=? 3)%nat then
              (Z.lor (Z.lor (Z.shiftl (Z.land c0 15) 12)
                            (Z.shiftl (Z.land b1 63) 6))
                     (Z.land b2 63), 3%nat)
            else
              let b3 := Z_of_byte (nth 2 rest x00) in
              if (b3 <? 128) || (191 <? b3) then (RuneError, 1%nat)
              else
                (Z.lor (Z.lor (Z.lor (Z.shiftl (Z.land c0 7) 18)
                                     (Z.shiftl (Z.land b1 63) 12))
                              (Z.shiftl (Z.land b2 63) 6))
                       (Z.land b3 63), 4%nat)
  end.

(** The bytes [utf8.EncodeRune] writes for a rune that is not negative. *)
Definition EncodeRune (r : Z) : list byte :=
  let cont x := byte_of_Z (Z.lor 128 (Z.land x 63)) in
  let three x :=
    [byte_of_Z (Z.lor 224 (Z.shiftr x 12)); cont (Z.shiftr x 6); cont x] in
  if r <=? 127 then [byte_of_Z r]
  else if r <=? 2047 then [byte_of_Z (Z.lor 192 (Z.shiftr r 6)); cont r]
  else if (MaxRune <? r) || ((55296 <=? r) && (r <=? 57343)) then three RuneError
  else if r <=? 65535 then three r
  else [byte_of_Z (Z.lor 240 (Z.shiftr r 18)); cont (Z.shiftr r 12);
        cont (Z.shiftr r 6); cont r].

End utf8.

Module utf16.

(** [utf16.IsSurrogate]. *)
Definition IsSurrogate (r : Z) : bool := (55296 <=? r) && (r <? 57344).

(** [utf16.DecodeRune]: the rune of a surrogate pair, U+FFFD when the
    two halves do not make one. *)
Definition DecodeRune (r1 r2 : Z) : Z :=
  if (55296 <=? r1) && (r1 <? 56320) && (56320 <=? r2) && (r2 <? 57344)
  then Z.lor (Z.shiftl (r1 - 55296) 10) (r2 - 56320) + 65536
  else 65533.

End utf16.

(* ================================================================== *)
(** * encoding/json *)

(** The part of the package the program reaches: [Unmarshal] into an
    [IncomingMessage], [Marshal] of a [string] and of an
    [OutgoingMessage].  The scanner is the state machine of
    [scanner.go], one definition per state function; the parse stack
    has its top at the head of the list. *)
Module json.

Definition quote : byte := x22.
Definition backslash : byte := x5c.

(** ** The scanner *)

Inductive stepFn :=
| StBeginValueOrEmpty | StBeginValue | StBeginStringOrEmpty | StBeginString
| StEndValue | StEndTop
| StInString | StInStringEsc | StInStringEscU | StInStringEscU1
| StInStringEscU12 | StInStringEscU123
| StNeg | St1 | St0 | StDot | StDot0 | StE | StESign | StE0
| StT | StTr | StTru | StF | StFa | StFal | StFals | StN | StNu | StNul
| StError.

Inductive parse := parseObjectKey | parseObjectValue | parseArrayValue.

Inductive opcode :=
| scanContinue | scanBeginLiteral | scanBeginObject | scanObjectKey
| scanObjectValue | scanEndObject | scanBeginArray | scanArrayValue
| scanEndArray | scanSkipSpace | scanEnd | scanError.

(** What a [SyntaxError] says: an offending byte with the context it was
    met in, or the end of the input. *)
Inductive syntaxMsg :=
| InvalidCharacter (c : byte) (context : string)
| UnexpectedEnd.

Record SyntaxError := { msg : syntaxMsg; Offset : Z }.

Record scanner := {
  step : stepFn;
  endTop : bool;
  parseState : list parse;
  err : option SyntaxError;
  bytes : Z
}.

Definition maxNestingDepth : Z := 10000.

Definition reset : scanner :=
  {| step := StBeginValue; endTop := false; parseState := [];
     err := None; bytes := 0 |}.

Definition setStep (s : scanner) (f : stepFn) : scanner :=
  {| step := f; endTop := endTop s; parseState := parseState s;
     err := err s; bytes := bytes s |}.

Definition setParseState (s : scanner) (ps : list parse) : scanner :=
  {| step := step s; endTop := endTop s; parseState := ps;
     err := err s; bytes := bytes s |}.

(** [scanner.error]. *)
Definition error (s : scanner) (c : byte) (context : string)
  : scanner * opcode :=
  ({| step := StError; endTop := endTop s; parseState := parseState s;
      err := Some {| msg := InvalidCharacter c context; Offset := bytes s |};
      bytes := bytes s |}, scanError).

(** [scanner.pushParseState]. *)
Definition pushParseState (s : scanner) (c : byte) (newParseState : parse)
  (successState : opcode) : scanner * opcode :=
  let s := setParseState s (newParseState :: parseState s) in
  if len (parseState s) <=? maxNestingDepth then (s, successState)
  else error s c "exceeded max depth".

(** [scanner.popParseState]. *)
Definition popParseState (s : scanner) : scanner :=
  let ps := tl (parseState s) in
  match ps with
  | [] => {| step := StEndTop; endTop := true; parseState := ps;
             err := err s; bytes := bytes s |}
  | _ => {| step := StEndValue; endTop := endTop s; parseState := ps;
            err := err s; bytes := bytes s |}
  end.

Definition isSpace (c : byte) : bool :=
  (c == " ") || (c == x09) || (c == x0d) || (c == x0a).

Definition isDigit (c : byte) : bool := byte_in "0" "9" c.

Definition isHex (c : byte) : bool :=
  byte_in "0" "9" c || byte_in "a" "f" c || byte_in "A" "F" c.

(** [stateEndTop]: an offending byte is recorded, and reported on the
    next call or by [eof]. *)
Definition stateEndTop (s : scanner) (c : byte) : scanner * opcode :=
  if isSpace c then (s, scanEnd)
  else (fst (error s c "after top-level value"), scanEnd).

Definition stateEndValue (s : scanner) (c : byte) : scanner * opcode :=
  match parseState s with
  | [] =>
      stateEndTop {| step := StEndTop; endTop := true; parseState := [];
                     err := err s; bytes := bytes s |} c
  | ps :: below =>
      if isSpace c then (setStep s StEndValue, scanSkipSpace)
      else
        match ps with
        | parseObjectKey =>
            if c == ":" then
              (setStep (setParseState s (parseObjectValue :: below)) StBeginValue,
               scanObjectKey)
            else error s c "after object key"
        | parseObjectValue =>
            if c == "," then
              (setStep (setParseState s (parseObjectKey :: below)) StBeginString,
               scanObjectValue)
            else if c == "}" then (popParseState s, scanEndObject)
            else error s c "after object key:value pair"
        | parseArrayValue =>
            if c == "," then (setStep s StBeginValue, scanArrayValue)
            else if c == "]" then (popParseState s, scanEndArray)
            else error s c "after array element"
        end
  end.

Definition stateBeginValue (s : scanner) (c : byte) : scanner * opcode :=
  if isSpace c then (s, scanSkipSpace)
  else if c == "{" then
    pushParseState (setStep s StBeginStringOrEmpty) c parseObjectKey scanBeginObject
  else if c == "[" then
    pushParseState (setStep s StBeginValueOrEmpty) c parseArrayValue scanBeginArray
  else if c == quote then (setStep s StInString, scanBeginLiteral)
  else if c == "-" then (setStep s StNeg, scanBeginLiteral)
  else if c == "0" then (setStep s St0, scanBeginLiteral)
  else if c == "t" then (setStep s StT, scanBeginLiteral)
  else if c == "f" then (setStep s StF, scanBeginLiteral)
  else if c == "n" then (setStep s StN, scanBeginLiteral)
  else if byte_in "1" "9" c then (setStep s St1, scanBeginLiteral)
  else error s c "looking for beginning of value".

Definition stateBeginValueOrEmpty (s : scanner) (c : byte) : scanner * opcode :=
  if isSpace c then (s, scanSkipSpace)
  else if c == "]" then stateEndValue s c
  else stateBeginValue s c.

Definition stateBeginString (s : scanner) (c : byte) : scanner * opcode :=
  if isSpace c then (s, scanSkipSpace)
  else if c == quote then (setStep s StInString, scanBeginLiteral)
  else error s c "looking for beginning of object key string".

Definition stateBeginStringOrEmpty (s : scanner) (c : byte) : scanner * opcode :=
  if isSpace c then (s, scanSkipSpace)
  else if c == "}" then
    stateEndValue (setParseState s (parseObjectValue :: tl (parseState s))) c
  else stateBeginString s c.

Definition stateInString (s : scanner) (c : byte) : scanner * opcode :=
  if c == quote then (setStep s StEndValue, scanContinue)
  else if c == backslash then (setStep s StInStringEsc, scanContinue)
  else if byte_lt c " " then error s c "in string literal"
  else (s, scanContinue).

Definition stateInStringEsc (s : scanner) (c : byte) : scanner * opcode :=
  if (c == "b") || (c == "f") || (c == "n") || (c == "r") || (c == "t")
     || (c == backslash) || (c == "/") || (c == quote)
  then (setStep s StInString, scanContinue)
  else if c == "u" then (setStep s StInStringEscU, scanContinue)
  else error s c "in string escape code".

(** [stateInStringEscU], [..U1], [..U12], [..U123]: one hexadecimal
    digit each, [next] being the state that follows. *)
Definition stateInStringEscHex (next : stepFn) (s : scanner) (c : byte)
  : scanner * opcode :=
  if isHex c then (setStep s next, scanContinue)
  else error s c "in \u hexadecimal character escape".

Definition stateNeg (s : scanner) (c : byte) : scanner * opcode :=
  if c == "0" then (setStep s St0, scanContinue)
  else if byte_in "1" "9" c then (setStep s St1, scanContinue)
  else error s c "in numeric literal".

Definition stateE0 (s : scanner) (c : byte) : scanner * opcode :=
  if isDigit c then (s, scanContinue) else stateEndValue s c.

Definition stateESign (s : scanner) (c : byte) : scanner * opcode :=
  if isDigit c then (setStep s StE0, scanContinue)
  else error s c "in exponent of numeric literal".

Definition stateE (s : scanner) (c : byte) : scanner * opcode :=
  if (c == "+") || (c == "-") then (setStep s StESign, scanContinue)
  else stateESign s c.

Definition stateDot0 (s : scanner) (c : byte) : scanner * opcode :=
  if isDigit c then (s, scanContinue)
  else if (c == "e") || (c == "E") then (setStep s StE, scanContinue)
  else stateEndValue s c.

Definition stateDot (s : scanner) (c : byte) : scanner * opcode :=
  if isDigit c then (setStep s StDot0, scanContinue)
  else error s c "after decimal point in numeric literal".

Definition state0 (s : scanner) (c : byte) : scanner * opcode :=
  if c == "." then (setStep s StDot, scanContinue)
  else if (c == "e") || (c == "E") then (setStep s StE, scanContinue)
  else stateEndValue s c.

Definition state1 (s : scanner) (c : byte) : scanner * opcode :=
  if isDigit c then (setStep s St1, scanContinue) else state0 s c.

(** [stateT] .. [stateNul]: the letters of [true], [false] and [null]. *)
Definition stateLetter (expect : byte) (next : stepFn) (context : string)
  (s : scanner) (c : byte) : scanner * opcode :=
  if c == expect then (setStep s next, scanContinue) else error s c context.

(** A call [s.step(s, c)]. *)
Definition call (s : scanner) (c : byte) : scanner * opcode :=
  match step s with
  | StBeginValueOrEmpty => stateBeginValueOrEmpty s c
  | StBeginValue => stateBeginValue s c
  | StBeginStringOrEmpty => stateBeginStringOrEmpty s c
  | StBeginString => stateBeginString s c
  | StEndValue => stateEndValue s c
  | StEndTop => stateEndTop s c
  | StInString => stateInString s c
  | StInStringEsc => stateInStringEsc s c
  | StInStringEscU => stateInStringEscHex StInStringEscU1 s c
  | StInStringEscU1 => stateInStringEscHex StInStringEscU12 s c
  | StInStringEscU12 => stateInStringEscHex StInStringEscU123 s c
  | StInStringEscU123 => stateInStringEscHex StInString s c
  | StNeg => stateNeg s c
  | St1 => state1 s c
  | St0 => state0 s c
  | StDot => stateDot s c
  | StDot0 => stateDot0 s c
  | StE => stateE s c
  | StESign => stateESign s c
  | StE0 => stateE0 s c
  | StT => stateLetter "r" StTr "in literal true (expecting 'r')" s c
  | StTr => stateLetter "u" StTru "in literal true (expecting 'u')" s c
  | StTru => stateLetter "e" StEndValue "in literal true (expecting 'e')" s c
  | StF => stateLetter "a" StFa "in literal false (expecting 'a')" s c
  | StFa => stateLetter "l" StFal "in literal false (expecting 'l')" s c
  | StFal => stateLetter "s" StFals "in literal false (expecting 's')" s c
  | StFals => stateLetter "e" StEndValue "in literal false (expecting 'e')" s c
  | StN => stateLetter "u" StNu "in literal null (expecting 'u')" s c
  | StNu => stateLetter "l" StNul "in literal null (expecting 'l')" s c
  | StNul => stateLetter "l" StEndValue "in literal null (expecting 'l')" s c
  | StError => (s, scanError)
  end.

(** [scanner.eof]: the error the scanner ends with, if any. *)
Definition eof (s : scanner) : option SyntaxError :=
  match err s with
  | Some e => Some e
  | None =>
      if endTop s then None
      else
        let s' := fst (call s " ") in
        if endTop s' then None
        else match err s' with
             | Some e => Some e
             | None => Some {| msg := UnexpectedEnd; Offset := bytes s' |}
             end
  end.

(** [checkValid]: the loop over [data], leaving at the first byte the
    scanner refuses. *)
Fixpoint checkValidFrom (s : scanner) (data : list byte) : option SyntaxError :=
  match data with
  | [] => eof s
  | c :: rest =>
      let s := {| step := step s; endTop := endTop s;
                  parseState := parseState s; err := err s;
                  bytes := bytes s + 1 |} in
      match call s c with
      | (s', scanError) => err s'
      | (s', _) => checkValidFrom s' rest
      end
  end.

Definition checkValid (data : list byte) : option SyntaxError :=
  checkValidFrom reset data.

(** ** Unquoting a string literal *)

Definition hexValue (c : byte) : option Z :=
  if byte_in "0" "9" c then Some (Z_of_byte c - 48)
  else if byte_in "a" "f" c then Some (Z_of_byte c - 97 + 10)
  else if byte_in "A" "F" c then Some (Z_of_byte c - 65 + 10)
  else None.

(** [getu4]: the code unit of a [\uXXXX] at the head of [s], or [-1]. *)
Definition getu4 (s : list byte) : Z :=
  match s with
  | e :: u :: h1 :: h2 :: h3 :: h4 :: _ =>
      if (e == backslash) && (u == "u") then
        match hexValue h1, hexValue h2, hexValue h3, hexValue h4 with
        | Some a, Some b, Some c, Some d => ((a * 16 + b) * 16 + c) * 16 + d
        | _, _, _, _ => -1
        end
      else -1
  | _ => -1
  end.

(** The loop of [unquoteBytes] over what stands between the quotes;
    [None] is its [ok = false].  Each round consumes at least one byte,
    so [fuel] equal to the length of [s] is never used up.  (The
    library first skips the longest prefix that needs no rewriting; the
    loop copies such a prefix unchanged.) *)
Fixpoint unquoteLoop (fuel : nat) (s : list byte) : option (list byte) :=
  match fuel, s with
  | _, [] => Some []
  | O, _ :: _ => None
  | S fuel, c :: rest =>
      let continue (out : list byte) (s' : list byte) :=
        option_map (app out) (unquoteLoop fuel s') in
      if c == backslash then
        match rest with
        | [] => None
        | e :: rest' =>
            if (e == quote) || (e == backslash) || (e == "/") || (e == "'")
            then continue [e] rest'
            else if e == "b" then continue [x08] rest'
            else if e == "f" then continue [x0c] rest'
            else if e == "n" then continue [x0a] rest'
            else if e == "r" then continue [x0d] rest'
            else if e == "t" then continue [x09] rest'
            else if e == "u" then
              let rr := getu4 s in
              if rr <? 0 then None
              else
                let s1 := skipn 6 s in
                if utf16.IsSurrogate rr then
                  let dec := utf16.DecodeRune rr (getu4 s1) in
                  if dec =? 65533 then continue (utf8.EncodeRune 65533) s1
                  else continue (utf8.EncodeRune dec) (skipn 6 s1)
                else continue (utf8.EncodeRune rr) s1
            else None
        end
      else if (c == quote) || byte_lt c " " then None
      else if Z_of_byte c <? utf8.RuneSelf then continue [c] rest
      else
        let '(rr, size) := utf8.DecodeRune s in
        continue (utf8.EncodeRune rr) (skipn size s)
  end.

(** [unquoteBytes]. *)
Definition unquoteBytes (s : list byte) : option (list byte) :=
  match s with
  | q :: rest =>
      match rev rest with
      | q' :: body =>
          if (q == quote) && (q' == quote)
          then unquoteLoop (length rest) (rev body)
          else None
      | [] => None
      end
  | [] => None
  end.

(** ** Decoding into an [IncomingMessage] *)

(** The errors [Unmarshal] returns here. *)
Inductive UnmarshalError :=
| ESyntax (e : SyntaxError)
| EUnmarshalType (Value : string).

(** Whether an object key selects the field tagged [query]: the exact
    name, or a name equal to it once ASCII letters are put in upper
    case.  (The library folds whole runes; the only runes outside ASCII
    that fold to an ASCII letter fold to K or S, which the name does not
    contain.) *)
Definition foldByte (c : byte) : byte :=
  if byte_in "a" "z" c then byte_of_Z (Z_of_byte c - 32) else c.

Definition namesQuery (key : list byte) : bool :=
  if list_eq_dec Byte.byte_eq_dec (map foldByte key) (list_byte_of_string "QUERY")
  then true else false.

(** Where the decoder stands in the input.  Only the members of the
    top-level object can reach the target; everything nested deeper is
    skipped, and the scanner's stack tells the depth. *)
Inductive position :=
| AtTop
| InObject (named : bool)
| InKey (raw : list byte)
| InValue (raw : list byte)
| Skipped.

Record decodeState := {
  scan : scanner;
  at_ : position;
  target : IncomingMessage;
  savedError : option UnmarshalError
}.

(** [decodeState.saveError]: the first error is the one kept. *)
Definition saveError (saved : option UnmarshalError) (e : UnmarshalError)
  : option UnmarshalError :=
  match saved with
  | Some _ => saved
  | None => Some e
  end.

(** The JSON type a value has, from the byte and the opcode that open
    it; [None] for [null], which is stored nowhere here. *)
Definition valueType (c : byte) (op : opcode) : option string :=
  match op with
  | scanBeginObject => Some "object"%string
  | scanBeginArray => Some "array"%string
  | _ =>
      if c == quote then Some "string"%string
      else if c == "n" then None
      else if (c == "t") || (c == "f") then Some "bool"%string
      else Some "number"%string
  end.

Definition beginsValue (op : opcode) : bool :=
  match op with
  | scanBeginLiteral | scanBeginObject | scanBeginArray => true
  | _ => false
  end.

(** One byte of input.  At the top level an object is entered and any
    other value but [null] is a type error.  In the object, a key is
    collected up to its closing quote and compared with the field
    name; the value of a key that names the field is stored when it is
    a string, left alone when it is [null], a type error otherwise;
    the value of any other key is skipped.  Where [unquoteBytes] gives
    [None] the library panics (the decoder is out of step with the
    scanner); the scanner has accepted the literal by then, and the
    model stores nothing there. *)
Definition decodeByte (d : decodeState) (c : byte) : decodeState :=
  let pre := scan d in
  let '(post, op) := call pre c in
  let closes := match step pre with StInString => c == quote | _ => false end in
  let upd p t e := {| scan := post; at_ := p; target := t; savedError := e |} in
  match at_ d with
  | AtTop =>
      match op with
      | scanSkipSpace => upd AtTop (target d) (savedError d)
      | scanBeginObject => upd (InObject false) (target d) (savedError d)
      | _ =>
          match valueType c op with
          | Some ty => upd Skipped (target d)
                           (saveError (savedError d) (EUnmarshalType ty))
          | None => upd Skipped (target d) (savedError d)
          end
      end
  | InObject named =>
      match parseState pre, op with
      | [parseObjectKey], scanBeginLiteral =>
          upd (InKey [c]) (target d) (savedError d)
      | [parseObjectValue], _ =>
          if beginsValue op then
            if named then
              match valueType c op with
              | Some "string"%string => upd (InValue [c]) (target d) (savedError d)
              | Some ty => upd (InObject false) (target d)
                               (saveError (savedError d) (EUnmarshalType ty))
              | None => upd (InObject false) (target d) (savedError d)
              end
            else upd (InObject false) (target d) (savedError d)
          else upd (InObject named) (target d) (savedError d)
      | _, _ => upd (InObject named) (target d) (savedError d)
      end
  | InKey raw =>
      if closes then
        let named := match unquoteBytes (rev (c :: raw)) with
                     | Some key => namesQuery key
                     | None => false
                     end in
        upd (InObject named) (target d) (savedError d)
      else upd (InKey (c :: raw)) (target d) (savedError d)
  | InValue raw =>
      if closes then
        match unquoteBytes (rev (c :: raw)) with
        | Some v => upd (InObject false)
                        {| iQuery := string_of_list_byte v |} (savedError d)
        | None => upd (InObject false) (target d) (savedError d)
        end
      else upd (InValue (c :: raw)) (target d) (savedError d)
  | Skipped => upd Skipped (target d) (savedError d)
  end.

(** [json.Unmarshal(data, &v)] for [v] an [IncomingMessage]: the value
    left in [v] and the error returned.  Input that is not JSON is
    refused before anything is stored. *)
Definition Unmarshal (data : list byte) (v : IncomingMessage)
  : IncomingMessage * option UnmarshalError :=
  match checkValid data with
  | Some e => (v, Some (ESyntax e))
  | None =>
      let d := fold_left decodeByte data
                 {| scan := reset; at_ := AtTop; target := v;
                    savedError := None |} in
      (target d, savedError d)
  end.

(** ** Encoding *)

(** [htmlSafeSet], for a byte below [utf8.RuneSelf]. *)
Definition htmlSafe (b : byte) : bool :=
  byte_le " " b
  && negb ((b == quote) || (b == "&") || (b == "<") || (b == ">")
           || (b == backslash)).

Definition hex (n : Z) : byte :=
  nth (Z.to_nat n) (list_byte_of_string "0123456789abcdef") "0"%byte.

(** The escape written for a byte that is not [htmlSafe].  (Releases
    of the library before Go 1.22 write [\u0008] and [\u000c] where
    the later ones write [\b] and [\f].) *)
Definition escape (b : byte) : list byte :=
  if (b == backslash) || (b == quote) then [backslash; b]
  else if b == x08 then [backslash; "b"%byte]
  else if b == x0c then [backslash; "f"%byte]
  else if b == x0a then [backslash; "n"%byte]
  else if b == x0d then [backslash; "r"%byte]
  else if b == x09 then [backslash; "t"%byte]
  else [backslash; "u"%byte; "0"%byte; "0"%byte;
        hex (Z.shiftr (Z_of_byte b) 4); hex (Z.land (Z_of_byte b) 15)].

(** The loop of [appendString] with HTML escaping on, as [Marshal] runs
    it.  Each round consumes at least one byte of [src]. *)
Fixpoint appendStringLoop (fuel : nat) (src : list byte) : list byte :=
  match fuel, src with
  | _, [] => []
  | O, _ :: _ => []
  | S fuel, b :: rest =>
      if Z_of_byte b <? utf8.RuneSelf then
        (if htmlSafe b then [b] else escape b) ++ appendStringLoop fuel rest
      else
        let '(c, size) := utf8.DecodeRune (firstn 4 src) in
        if (c =? utf8.RuneError) && (size =? 1)%nat then
          backslash :: list_byte_of_string "ufffd" ++ appendStringLoop fuel rest
        else if (c =? 8232) || (c =? 8233) then
          backslash :: list_byte_of_string "u202" ++ [hex (Z.land c 15)]
            ++ appendStringLoop fuel (skipn size src)
        else firstn size src ++ appendStringLoop fuel (skipn size src)
  end.

(** [appendString]: a Go string as a JSON string literal. *)
Definition appendString (src : string) : list byte :=
  let bs := list_byte_of_string src in
  quote :: appendStringLoop (length bs) bs ++ [quote].

(** The errors [Marshal] can return; none arises for the two types the
    program marshals. *)
Inductive MarshalError := EUnsupportedType | EUnsupportedValue | EMarshaler.

(** [json.Marshal(v)] for [v] a [string]. *)
Definition MarshalString (v : string) : list byte * option MarshalError :=
  (appendString v, None).

(** [json.Marshal(v)] for [v] an [OutgoingMessage]: an object with the
    two tagged fields, in the order of the declaration. *)
Definition MarshalOutgoing (v : OutgoingMessage)
  : list byte * option MarshalError :=
  ("{"%byte :: appendString "query" ++ [":"%byte] ++ appendString (Query v)
     ++ [","%byte] ++ appendString "response" ++ [":"%byte]
     ++ appendString (Response v) ++ ["}"%byte], None).

End json.

(* ================================================================== *)
(** * The process and its streams *)

Module io.

(** The errors a [Read] returns: [io.EOF], or a failure of the
    transport. *)
Inductive error := EOF | ErrFailed.

End io.

(** What one [Read] of a file or of a request body finds: some bytes
    ([b] and then [bs], so at least one), or a failure.  A list of
    such events is a stream; read to its end it gives [io.EOF]. *)
Inductive ReadEvent :=
| Data (b : byte) (bs : list byte)
| Failure.

(** Any of the error values the program logs with [%v]. *)
Inductive goerror :=
| ErrIO (e : io.error)
| ErrBinary (e : binary.error)
| ErrUnmarshal (e : json.UnmarshalError)
| ErrMarshal (e : json.MarshalError).

(** An argument of a [Printf]. *)
Inductive Arg :=
| VInt (n : Z)
| VString (s : string)
| VBytes (b : list byte)
| VError (e : goerror).

(** What has been written to a stream: raw bytes, or a line of a
    logger, kept as its prefix, format and arguments (the date, time and
    source position the logger adds are left out). *)
Inductive Written :=
| Bytes (b : list byte)
| Line (prefix format : string) (args : list Arg).

(** The [io.Writer]s the loggers can be attached to. *)
Inductive Handle := Stdout | Stderr | LogFile.

Record World := {
  stdin : list ReadEvent;
  stdout : list Written;
  stderr : list Written;
  logfile : list Written
}.

(** ** Computations on the world *)

Definition M (A : Type) : Type := World -> A * World.

Definition ret {A} (a : A) : M A := fun w => (a, w).

Definition bind {A B} (m : M A) (k : A -> M B) : M B :=
  fun w => let '(a, w') := m w in k a w'.

Declare Scope M_scope.
Delimit Scope M_scope with M.
Notation "x <- m ;; k" := (bind m (fun x => k))
  (at level 61, m at next level, right associativity) : M_scope.
Notation "' pat <- m ;; k" := (bind m (fun x => match x with pat => k end))
  (at level 61, pat pattern, m at next level, right associativity) : M_scope.
Notation "m ;; k" := (bind m (fun _ => k))
  (at level 61, right associativity) : M_scope.
Local Open Scope M_scope.

(** [when err != nil]. *)
Definition whenSome {E} (err : option E) (k : E -> M unit) : M unit :=
  match err with
  | Some e => k e
  | None => ret tt
  end.

(** Appending to the stream behind a handle. *)
Definition put (h : Handle) (x : Written) (w : World) : World :=
  match h with
  | Stdout => {| stdin := stdin w; stdout := stdout w ++ [x];
                 stderr := stderr w; logfile := logfile w |}
  | Stderr => {| stdin := stdin w; stdout := stdout w;
                 stderr := stderr w ++ [x]; logfile := logfile w |}
  | LogFile => {| stdin := stdin w; stdout := stdout w;
                  stderr := stderr w; logfile := logfile w ++ [x] |}
  end.

Definition write (h : Handle) (x : Written) : M unit :=
  fun w => (tt, put h x w).

Module os.

(** [os.Stdin.Read(p)]: the slice after the call, the count and the
    error.  A read takes what the head event holds, up to [len(p)]. *)
Definition Stdin_Read (p : list byte) : M (list byte * Z * option io.error) :=
  fun w =>
    match p with
    | [] => ((p, 0, None), w)
    | _ :: _ =>
        let continue_with evs :=
          {| stdin := evs; stdout := stdout w; stderr := stderr w;
             logfile := logfile w |} in
        match stdin w with
        | [] => ((p, 0, Some io.EOF), w)
        | Failure :: rest => ((p, 0, Some io.ErrFailed), continue_with rest)
        | Data b bs :: rest =>
            let got := firstn (length p) (b :: bs) in
            ((copy p got, len got, None),
             continue_with
               match skipn (length p) (b :: bs) with
               | [] => rest
               | b' :: bs' => Data b' bs' :: rest
               end)
        end
    end.

(** [os.Stdout.Write(b)]; the write succeeds. *)
Definition Stdout_Write (b : list byte) : M (option io.error) :=
  write Stdout (Bytes b) ;; ret None.

End os.

Module log.

(** A [*log.Logger] made by [log.New(out, prefix, flags)]. *)
Record Logger := { out : Handle; prefix : string }.

Definition New (out : Handle) (prefix : string) : Logger :=
  {| out := out; prefix := prefix |}.

Definition Printf (l : Logger) (format : string) (args : list Arg) : M unit :=
  write (out l) (Line (prefix l) format args).

Definition Print (l : Logger) (args : list Arg) : M unit :=
  write (out l) (Line (prefix l) "" args).

End log.

Module ioutil.

(** [ioutil.ReadAll(r)]: everything up to the end of the stream, or
    what was read before a failure together with that failure. *)
Fixpoint ReadAll (r : list ReadEvent) : list byte * option io.error :=
  match r with
  | [] => ([], None)
  | Failure :: _ => ([], Some io.ErrFailed)
  | Data b bs :: rest =>
      let '(more, err) := ReadAll rest in (b :: bs ++ more, err)
  end.

End ioutil.

(* ================================================================== *)
(** * bufio *)

Module bufio.

(** The state of one [bufio.Reader]: the length of its buffer, the
    bytes read ahead and not yet handed out ([buf[r:w]]), and the error
    kept for the next call. *)
Record Buffer := {
  bufLen : Z;
  buffered : list byte;
  rerr : option io.error
}.

(** An [io.Reader] of this program: [os.Stdin] with buffered readers
    stacked on it, the outermost first; [[]] is [os.Stdin] itself. *)
Definition Reader := list Buffer.

Definition defaultBufSize : Z := 4096.
Definition minReadBufferSize : Z := 16.

(** [bufio.NewReaderSize(rd, size)]; a buffered reader that is large
    enough is returned as it is. *)
Definition NewReaderSize (rd : Reader) (size : Z) : Reader :=
  let fresh := {| bufLen := Z.max size minReadBufferSize; buffered := [];
                  rerr := None |} in
  match rd with
  | b :: _ => if bufLen b >=? size then rd else fresh :: rd
  | [] => fresh :: rd
  end.

Definition NewReader (rd : Reader) : Reader :=
  NewReaderSize rd defaultBufSize.

(** [Reader.Size]. *)
Definition Size (b : Reader) : Z :=
  match b with
  | top :: _ => bufLen top
  | [] => 0
  end.

(** [Read(p)] on a reader: the slice after the call, the count, the
    error, and the reader after the call.  A buffered reader makes at
    most one [Read] of the reader under it, so the count may be less
    than [len(p)]. *)
Fixpoint Read (b : Reader) (p : list byte)
  : M (list byte * Z * option io.error * Reader) :=
  match b with
  | [] => '(p', n, e) <- os.Stdin_Read p ;; ret (p', n, e, [])
  | {| bufLen := bl; buffered := bf; rerr := e |} :: under =>
      let keep bf' e' under' :=
        {| bufLen := bl; buffered := bf'; rerr := e' |} :: under' in
      match p, bf with
      | [], [] => ret (p, 0, e, keep [] None under)
      | [], _ :: _ => ret (p, 0, None, b)
      | _ :: _, [] =>
          match e with
          | Some _ => ret (p, 0, e, keep [] None under)
          | None =>
              if len p >=? bl then
                (* large read, empty buffer: read directly into p *)
                '(p', n, e', under') <- Read under p ;;
                ret (p', n, e', keep [] None under')
              else
                (* one read into the buffer *)
                '(buf, n, e', under') <- Read under (make bl) ;;
                if n =? 0 then ret (p, 0, e', keep [] None under')
                else
                  let got := firstn (Z.to_nat n) buf in
                  ret (copy p got, Z.min (len p) (len got), None,
                       keep (skipn (length p) got) e' under')
          end
      | _ :: _, _ :: _ =>
          (* copy as much as we can *)
          ret (copy p bf, Z.min (len p) (len bf), None,
               keep (skipn (length p) bf) e under)
      end
  end.

End bufio.

Module bytes.

(** A [bytes.Buffer]: the bytes written to it and not yet read. *)
Definition Buffer := list byte.

(** [Buffer.Write(p)]: the buffer grows as needed; [err] is always nil. *)
Definition Write (b : Buffer) (p : list byte) : Buffer * option io.error :=
  (b ++ p, None).

(** [Buffer.WriteTo(os.Stdout)]: what the buffer holds goes out in one
    [Write], and nothing is written for an empty buffer. *)
Definition WriteTo_Stdout (b : Buffer) : M (Buffer * option io.error) :=
  match b with
  | [] => ret (b, None)
  | _ :: _ => err <- os.Stdout_Write b ;; ret ([], err)
  end.

End bytes.

(* ================================================================== *)
(** * The program *)

(** The package-level variables [Init] sets, once. *)
Record Globals := {
  Trace : log.Logger;
  Error : log.Logger;
  nativeEndian : binary.ByteOrder
}.

(** [bufferSize]: the size of the IO buffer; never assigned again. *)
Definition bufferSize : Z := 8192.

(** [Init] initializes the loggers and determines the native byte
    order.  [lowByteOfOne] is the byte found at the address of an
    [int16] holding 1, which the source reads through [unsafe.Pointer]:
    [x01] on a little-endian machine, [x00] on a big-endian one. *)
Definition Init (lowByteOfOne : byte) (traceHandle errorHandle : Handle)
  : Globals :=
  {| Trace := log.New traceHandle "TRACE: ";
     Error := log.New errorHandle "ERROR: ";
     nativeEndian := if lowByteOfOne == x00 then binary.BigEndian
                     else binary.LittleEndian |}.

(** The globals [main] ends up with: loggers on the log file when it
    could be opened, on the standard output and error otherwise. *)
Definition mainGlobals (lowByteOfOne : byte) (logFileOpened : bool) : Globals :=
  if logFileOpened then Init lowByteOfOne LogFile LogFile
  else Init lowByteOfOne Stdout Stderr.

(** How a function that may end the process comes back. *)
Inductive Outcome :=
| Returned
| Exited (status : Z)
| OutOfFuel.

(** [Logger.Fatal]: [Print], then [os.Exit(1)]. *)
Definition Fatal (l : log.Logger) (args : list Arg) : M Outcome :=
  log.Print l args ;; ret (Exited 1).

(** The number of bytes a stream still holds. *)
Fixpoint pending (evs : list ReadEvent) : nat :=
  match evs with
  | [] => 0
  | Data _ bs :: rest => S (length bs) + pending rest
  | Failure :: rest => pending rest
  end.

Section Program.

Variable g : Globals.

(** [writeMessageLength] determines the length of the message and
    writes it to [os.Stdout]. *)
Definition writeMessageLength (msg : list byte) : M unit :=
  err <- os.Stdout_Write (binary.Write (nativeEndian g) (uint32 (len msg))) ;;
  whenSome err (fun e =>
    log.Printf (Error g) "Unable to write message length to Stdout: %v"
      [VError (ErrIO e)]).

(** [msgTextToBytes] marshals the message text to a slice of bytes. *)
Definition msgTextToBytes (msgText : string) : M (list byte) :=
  let '(byteMsg, err) := json.MarshalString msgText in
  whenSome err (fun e =>
    log.Printf (Error g)
      "Unable to marshal OutgoingMessage struct to slice of bytes: %v"
      [VError (ErrMarshal e)]) ;;
  ret byteMsg.

(** [dataToBytes] marshals the [OutgoingMessage] struct to a slice of
    bytes.  (Nothing in the program calls it.) *)
Definition dataToBytes (msg : OutgoingMessage) : M (list byte) :=
  let '(byteMsg, err) := json.MarshalOutgoing msg in
  whenSome err (fun e =>
    log.Printf (Error g)
      "Unable to marshal OutgoingMessage struct to slice of bytes: %v"
      [VError (ErrMarshal e)]) ;;
  ret byteMsg.

(** [send] sends an [OutgoingMessage] to [os.Stdout]. *)
Definition send (msg : OutgoingMessage) : M unit :=
  byteMsg <- msgTextToBytes (Response msg) ;;
  writeMessageLength byteMsg ;;
  let '(msgBuf, err) := bytes.Write [] byteMsg in
  whenSome err (fun e =>
    log.Printf (Error g)
      "Unable to write message length to message buffer: %v"
      [VError (ErrIO e)]) ;;
  '(_, err) <- bytes.WriteTo_Stdout msgBuf ;;
  whenSome err (fun e =>
    log.Printf (Error g) "Unable to write message buffer to Stdout: %v"
      [VError (ErrIO e)]).

(** [decodeMessage] unmarshals the incoming json request and returns
    the message; an error is logged and what [Unmarshal] left in
    [iMsg] is returned all the same. *)
Definition decodeMessage (msg : list byte) : M IncomingMessage :=
  let iMsg := zeroIncomingMessage in
  let '(iMsg, err) := json.Unmarshal msg iMsg in
  whenSome err (fun e =>
    log.Printf (Error g) "Unable to unmarshal json to struct: %v"
      [VError (ErrUnmarshal e)]) ;;
  ret iMsg.

(** The outgoing message [parseMessage] builds for an incoming one:
    the query is kept and the [switch] on it picks the response. *)
Definition respond (iMsg : IncomingMessage) : OutgoingMessage :=
  (* start building outgoing json message *)
  let oMsg := {| Query := iQuery iMsg; Response := "" |} in
  if (iQuery iMsg =? "ping")%string then
    {| Query := Query oMsg; Response := "pong" |}
  else if (iQuery iMsg =? "hello")%string then
    {| Query := Query oMsg; Response := "goodbye" |}
  else
    {| Query := Query oMsg; Response := "42" |}.

(** [parseMessage] parses an incoming message and answers it. *)
Definition parseMessage (msg : list byte) : M unit :=
  iMsg <- decodeMessage msg ;;
  log.Printf (Trace g) "Message received: %s" [VBytes msg] ;;
  send (respond iMsg).

(** [readMessageLength] reads and returns the message length value in
    native byte order. *)
Definition readMessageLength (msg : list byte) : M Z :=
  let length := 0 in
  let '(length, err) := binary.Read msg (nativeEndian g) length in
  whenSome err (fun e =>
    log.Printf (Error g)
      "Unable to read bytes representing message length: %v"
      [VError (ErrBinary e)]) ;;
  ret length.

(** The body of the loop of [read], entered after a [Read] into
    [lengthBytes] that returned some bytes and no error: the reader to
    go on with, or how the process has ended. *)
Definition readBody (s : bufio.Reader) (lengthBytes : list byte)
  : M (bufio.Reader + Outcome) :=
  (* convert message length bytes to integer value *)
  lengthNum <- readMessageLength lengthBytes ;;
  log.Printf (Trace g) "Message size in bytes: %v" [VInt lengthNum] ;;
  (if lengthNum >? bufferSize then
     log.Printf (Error g)
       "Message size of %d exceeds buffer size of %d. Message will be truncated and is unlikely to unmarshal to JSON."
       [VInt lengthNum; VInt bufferSize]
   else ret tt) ;;
  (* read the content of the message from buffer *)
  let content := make lengthNum in
  '(content, _, err, s) <- bufio.Read s content ;;
  match err with
  | Some io.ErrFailed =>
      out <- Fatal (Error g) [VError (ErrIO io.ErrFailed)] ;; ret (inr out)
  | _ =>
      (* message has been read, now parse and process *)
      parseMessage content ;; ret (inl s)
  end.

(** The loop of [read]: [fuel] bounds the number of rounds. *)
Fixpoint readLoop (fuel : nat) (s : bufio.Reader) (lengthBytes : list byte)
  : M Outcome :=
  match fuel with
  | O => ret OutOfFuel
  | S fuel =>
      '(lengthBytes, b, err, s) <- bufio.Read s lengthBytes ;;
      match (0 <? b), err with
      | true, None =>
          next <- readBody s lengthBytes ;;
          match next with
          | inl s => readLoop fuel s lengthBytes
          | inr out => ret out
          end
      | _, _ => ret Returned
      end
  end.

(** [read] creates a new buffered I/O reader and reads messages from
    [os.Stdin].  Every round of the loop takes at least one byte off
    the input, so one round more than the input has bytes is enough.
    (In the source, [main] goes from [Init] to the HTTP server and
    nothing calls [read]; it is verified as it is written.) *)
Definition read : M Outcome :=
  let v := bufio.NewReader [] in
  let s := bufio.NewReaderSize v bufferSize in
  log.Printf (Trace g) "IO buffer reader created with buffer size of %v."
    [VInt (bufio.Size s)] ;;
  let lengthBytes := make 4 in
  fuel <- (fun w => (S (pending (stdin w)), w)) ;;
  out <- readLoop fuel s lengthBytes ;;
  match out with
  | Returned => log.Print (Trace g) [VString "Stdin closed."] ;; ret Returned
  | _ => ret out
  end.

(** [performAction]: the action is sent as the query and as the
    response. *)
Definition performAction (action : string) : M unit :=
  if (action =? "")%string then
    log.Printf (Trace g) "Action string is empty" []
  else
    log.Printf (Trace g) "Performing action: %s" [VString action] ;;
    let msg := {| Query := action; Response := action |} in
    send msg ;;
    log.Printf (Trace g) "Message query: %s" [VString (Query msg)] ;;
    log.Printf (Trace g) "Message response: %s" [VString (Response msg)].

(** [actionEndpoint], the handler of [/action]; [body] is the stream
    behind [r.Body]. *)
Definition actionEndpoint (body : list ReadEvent) : M unit :=
  let '(reqBody, err) := ioutil.ReadAll body in
  match err with
  | Some e =>
      log.Printf (Trace g) "Error reading action body: %s" [VError (ErrIO e)]
  | None => performAction (string_of_list_byte reqBody)
  end.

End Program.

(* ================================================================== *)
(** * What the functions do to the world *)

(** A fresh process: the given input, nothing written yet. *)
Definition startWorld (input : list ReadEvent) : World :=
  {| stdin := input; stdout := []; stderr := []; logfile := [] |}.

(** The raw bytes among what was written to a stream, in order: on the
    standard output these are the frames. *)
Fixpoint rawBytes (l : list Written) : list byte :=
  match l with
  | [] => []
  | Bytes b :: rest => b ++ rawBytes rest
  | Line _ _ _ :: rest => rawBytes rest
  end.

(** The JSON text of a response, as [msgTextToBytes] produces it. *)
Definition payloadOf (response : string) : list byte :=
  json.appendString response.

(** The length header [writeMessageLength] puts before a payload. *)
Definition headerOf (order : binary.ByteOrder) (payload : list byte) : list byte :=
  binary.Write order (uint32 (len payload)).

(** The world after [send] has written the frame of a response. *)
Definition sent (g : Globals) (response : string) (w : World) : World :=
  put Stdout (Bytes (payloadOf response))
    (put Stdout (Bytes (headerOf (nativeEndian g) (payloadOf response))) w).

Lemma put_stdin h x w : stdin (put h x w) = stdin w.
Proof. destruct h; reflexivity. Qed.

Lemma put_stdout_other h x w :
  h <> Stdout -> stdout (put h x w) = stdout w.
Proof. destruct h; intros H; [contradiction H | |]; reflexivity. Qed.

Lemma put_rawBytes_line h p f a w :
  rawBytes (stdout (put h (Line p f a) w)) = rawBytes (stdout w).
Proof.
  destruct h; cbn [put stdout]; try reflexivity.
  induction (stdout w) as [|[b|] l IH]; cbn [rawBytes app]; try exact IH.
  - reflexivity.
  - rewrite IH. reflexivity.
Qed.

Lemma rawBytes_app l1 l2 : rawBytes (l1 ++ l2) = rawBytes l1 ++ rawBytes l2.
Proof.
  induction l1 as [|[b|] l IH]; cbn [rawBytes app]; try exact IH.
  - reflexivity.
  - rewrite IH, app_assoc. reflexivity.
Qed.

Lemma writeMessageLength_eq g msg w :
  writeMessageLength g msg w
  = (tt, put Stdout (Bytes (headerOf (nativeEndian g) msg)) w).
Proof. reflexivity. Qed.

Lemma msgTextToBytes_eq g msgText w :
  msgTextToBytes g msgText w = (payloadOf msgText, w).
Proof. reflexivity. Qed.

Lemma payloadOf_cons response :
  exists body, payloadOf response = json.quote :: body.
Proof. eexists. reflexivity. Qed.

Lemma send_eq g msg w : send g msg w = (tt, sent g (Response msg) w).
Proof.
  unfold send, sent, bind.
  rewrite msgTextToBytes_eq, writeMessageLength_eq.
  destruct (payloadOf_cons (Response msg)) as [body Hp].
  rewrite Hp. reflexivity.
Qed.

Lemma readMessageLength_four g b0 b1 b2 b3 w :
  readMessageLength g [b0; b1; b2; b3] w
  = (binary.Uint32 (nativeEndian g) [b0; b1; b2; b3], w).
Proof. reflexivity. Qed.

Lemma readMessageLength_header g payload w :
  readMessageLength g (headerOf (nativeEndian g) payload) w
  = (len payload mod 2 ^ 32, w).
Proof.
  unfold headerOf, binary.Write.
  assert (H : exists b0 b1 b2 b3,
             binary.PutUint32 (nativeEndian g) (uint32 (len payload))
             = [b0; b1; b2; b3]).
  { destruct (nativeEndian g); do 4 eexists; reflexivity. }
  destruct H as (b0 & b1 & b2 & b3 & H).
  rewrite H, readMessageLength_four, <- H.
  rewrite Uint32_PutUint32 by apply uint32_range.
  reflexivity.
Qed.

Lemma decodeMessage_eq g msg w :
  decodeMessage g msg w
  = (fst (json.Unmarshal msg zeroIncomingMessage),
     match snd (json.Unmarshal msg zeroIncomingMessage) with
     | Some e => put (log.out (Error g))
                   (Line (log.prefix (Error g))
                      "Unable to unmarshal json to struct: %v"
                      [VError (ErrUnmarshal e)]) w
     | None => w
     end).
Proof.
  unfold decodeMessage.
  destruct (json.Unmarshal msg zeroIncomingMessage) as [iMsg [e|]]; reflexivity.
Qed.

Lemma parseMessage_eq g msg w :
  parseMessage g msg w
  = (tt, sent g (Response (respond (fst (decodeMessage g msg w))))
           (put (log.out (Trace g))
              (Line (log.prefix (Trace g)) "Message received: %s" [VBytes msg])
              (snd (decodeMessage g msg w)))).
Proof.
  unfold parseMessage, bind.
  destruct (decodeMessage g msg w) as [iMsg w1]. cbn [fst snd].
  unfold log.Printf, write. apply send_eq.
Qed.

Lemma string_of_list_byte_nil (l : list byte) :
  string_of_list_byte l = EmptyString <-> l = [].
Proof.
  split; intros H.
  - destruct l; [reflexivity | discriminate H].
  - subst. reflexivity.
Qed.

(** A byte [appendString] copies as it is. *)
Definition plain (b : byte) : bool :=
  (Z_of_byte b <? utf8.RuneSelf) && json.htmlSafe b.

Lemma appendStringLoop_plain (l : list byte) :
  forall fuel, (length l <= fuel)%nat -> forallb plain l = true ->
               json.appendStringLoop fuel l = l.
Proof.
  induction l as [|b l IH]; intros fuel Hf Hp.
  - destruct fuel; reflexivity.
  - destruct fuel as [|fuel]; [cbn in Hf; lia|].
    cbn [forallb] in Hp. apply andb_true_iff in Hp. destruct Hp as [Hb Hl].
    unfold plain in Hb. apply andb_true_iff in Hb. destruct Hb as [Hb1 Hb2].
    cbn [json.appendStringLoop]. rewrite Hb1, Hb2.
    cbn [app]. f_equal. apply IH; [cbn in Hf; lia | exact Hl].
Qed.

Lemma forallb_repeat {A} (f : A -> bool) (a : A) (n : nat) :
  f a = true -> forallb f (repeat a n) = true.
Proof.
  intros H. induction n as [|n IH]; cbn [repeat forallb];
    [reflexivity | rewrite H, IH; reflexivity].
Qed.

Lemma payloadOf_plain (l : list byte) :
  forallb plain l = true ->
  payloadOf (string_of_list_byte l) = json.quote :: l ++ [json.quote].
Proof.
  intros H. unfold payloadOf, json.appendString.
  rewrite list_byte_of_string_of_list_byte.
  rewrite appendStringLoop_plain by (auto with arith). reflexivity.
Qed.

(* ================================================================== *)
(** * The length prefix *)

(** C1.  For every unsigned 32-bit integer [n], the four bytes
    [writeMessageLength] writes for a message of [n] bytes are read
    back by [readMessageLength] as [n], without an error being logged,
    in whichever byte order [Init] found. *)
Theorem length_prefix_round_trip (g : Globals) (n : Z) :
  0 <= n < 2 ^ 32 ->
  length (binary.Write (nativeEndian g) n) = 4%nat
  /\ (forall msg w, len msg = n ->
        writeMessageLength g msg w
        = (tt, put Stdout (Bytes (binary.Write (nativeEndian g) n)) w))
  /\ (forall w, readMessageLength g (binary.Write (nativeEndian g) n) w = (n, w)).
Proof.
  intros Hn. split; [apply PutUint32_length|]. split.
  - intros msg w Hlen. rewrite writeMessageLength_eq. unfold headerOf, uint32.
    rewrite Hlen, Z.mod_small by exact Hn. reflexivity.
  - intros w. unfold binary.Write.
    assert (H : exists b0 b1 b2 b3,
               binary.PutUint32 (nativeEndian g) n = [b0; b1; b2; b3]).
    { destruct (nativeEndian g); do 4 eexists; reflexivity. }
    destruct H as (b0 & b1 & b2 & b3 & H).
    rewrite H, readMessageLength_four, <- H, Uint32_PutUint32 by exact Hn.
    reflexivity.
Qed.

(** The length 17 of the first frame of the scenario of C6, on a
    little-endian host. *)
Lemma length_prefix_round_trip_17 :
  readMessageLength (mainGlobals x01 true)
    (binary.Write binary.LittleEndian 17) (startWorld [])
  = (17, startWorld []).
Proof.
  refine (proj2 (proj2 (length_prefix_round_trip (mainGlobals x01 true) 17 _)) _).
  lia.
Defined.

(** A response of [2^32 - 2] letters; its JSON text has [2^32] bytes. *)
Definition hugeResponse : string :=
  string_of_list_byte (repeat "a"%byte (Z.to_nat 4294967294)).

Lemma payloadOf_repeat_length (n : nat) :
  len (payloadOf (string_of_list_byte (repeat "a"%byte n))) = Z.of_nat n + 2.
Proof.
  rewrite payloadOf_plain by (apply forallb_repeat; reflexivity).
  unfold len. cbn [List.length].
  rewrite length_app, repeat_length. cbn [List.length]. lia.
Qed.

Lemma hugeResponse_payload : len (payloadOf hugeResponse) = 2 ^ 32.
Proof.
  unfold hugeResponse.
  rewrite payloadOf_repeat_length, Z2Nat.id by discriminate.
  reflexivity.
Qed.

(** C2, as stated, fails: for a response as long as [hugeResponse] the
    payload has [2^32] bytes and the prefix [send] writes before it
    decodes to 0. *)
Lemma send_prefix_wraps :
  let g := mainGlobals x01 true in
  let msg := {| Query := ""; Response := hugeResponse |} in
  send g msg (startWorld []) = (tt, sent g (Response msg) (startWorld []))
  /\ len (payloadOf hugeResponse) = 2 ^ 32
  /\ fst (readMessageLength g
            (headerOf (nativeEndian g) (payloadOf hugeResponse))
            (startWorld [])) = 0.
Proof.
  cbv zeta. split; [exact (send_eq _ _ _)|].
  split; [exact hugeResponse_payload|].
  rewrite readMessageLength_header, hugeResponse_payload. reflexivity.
Qed.

(** C2, amended.  [send] writes a 4-byte prefix and then the JSON
    payload; the prefix decodes to the length of the payload modulo
    [2^32], hence to the length itself for every payload shorter than
    [2^32] bytes. *)
Theorem send_prefix_matches_payload (g : Globals) (msg : OutgoingMessage)
  (w : World) :
  let payload := payloadOf (Response msg) in
  let header := headerOf (nativeEndian g) payload in
  send g msg w = (tt, put Stdout (Bytes payload) (put Stdout (Bytes header) w))
  /\ length header = 4%nat
  /\ fst (readMessageLength g header w) = len payload mod 2 ^ 32
  /\ (len payload < 2 ^ 32 -> fst (readMessageLength g header w) = len payload).
Proof.
  cbv zeta. split; [apply send_eq|]. split; [apply PutUint32_length|].
  rewrite readMessageLength_header. cbn [fst]. split; [reflexivity|].
  intros H. apply Z.mod_small. unfold len in *. lia.
Qed.

(** The response "goodbye": nine bytes of payload, a prefix of 9. *)
Lemma send_prefix_matches_goodbye :
  fst (readMessageLength (mainGlobals x01 true)
         (headerOf binary.LittleEndian (payloadOf "goodbye")) (startWorld []))
  = len (payloadOf "goodbye").
Proof.
  refine (proj2 (proj2 (proj2
    (send_prefix_matches_payload (mainGlobals x01 true)
       {| Query := "hello"; Response := "goodbye" |} (startWorld [])))) _).
  vm_compute. reflexivity.
Defined.

(* ================================================================== *)
(** * The dispatch of the stdio path *)

(** C3.  The mapping from query to response that [parseMessage]
    applies is a function of the query alone, defined on every string:
    "ping" gives "pong", "hello" gives "goodbye", anything else, the
    empty string included, gives "42"; the query is kept, and
    [parseMessage] sends exactly the message so built. *)
Theorem query_mapping (q : string) :
  let oMsg := respond {| iQuery := q |} in
  Query oMsg = q
  /\ (q = "ping"%string /\ Response oMsg = "pong"%string
      \/ q = "hello"%string /\ Response oMsg = "goodbye"%string
      \/ q <> "ping"%string /\ q <> "hello"%string
         /\ Response oMsg = "42"%string)
  /\ Response (respond {| iQuery := "" |}) = "42"%string
  /\ (forall g msg w,
        parseMessage g msg w
        = send g (respond (fst (decodeMessage g msg w)))
            (put (log.out (Trace g))
               (Line (log.prefix (Trace g)) "Message received: %s" [VBytes msg])
               (snd (decodeMessage g msg w)))).
Proof.
  cbv zeta. unfold respond. cbn [iQuery Query].
  split.
  { destruct (q =? "ping")%string; [reflexivity|].
    destruct (q =? "hello")%string; reflexivity. }
  split.
  { destruct (String.eqb_spec q "ping") as [Hp|Hp].
    - left. split; [exact Hp | reflexivity].
    - destruct (String.eqb_spec q "hello") as [Hh|Hh].
      + right; left. split; [exact Hh | reflexivity].
      + right; right. repeat split; assumption || reflexivity. }
  split; [reflexivity|].
  intros g msg w. rewrite parseMessage_eq, send_eq. reflexivity.
Qed.

(* ================================================================== *)
(** * Payloads that do not decode *)

Definition lit (s : string) : list byte := list_byte_of_string s.

(** The JSON text of an incoming message with the given query, as the
    peer would send it: an object with the one member [query]. *)
Definition envelope (q : string) : list byte :=
  lit "{" ++ payloadOf "query" ++ lit ":" ++ payloadOf q ++ lit "}".






(* ================================================================== *)
(** * What [send] puts on the wire *)

(** C5.  The payload [send] writes is the JSON text of the response
    string alone: whatever the query, the frame is the same, and it is
    not the JSON text of the whole message. *)
Theorem send_writes_response_only (g : Globals) (msg : OutgoingMessage)
  (w : World) :
  let payload := fst (json.MarshalString (Response msg)) in
  send g msg w
  = (tt, put Stdout (Bytes payload)
           (put Stdout (Bytes (headerOf (nativeEndian g) payload)) w))
  /\ (forall q, send g {| Query := q; Response := Response msg |} w
                = send g msg w)
  /\ payload <> fst (json.MarshalOutgoing msg)
  /\ payload <> fst (dataToBytes g msg w).
Proof.
  cbv zeta. split; [apply send_eq|]. split.
  - intros q. rewrite !send_eq. reflexivity.
  - split; intros H; discriminate H.
Qed.

(** C10.  [json.Marshal] of a string returns no error, so
    [msgTextToBytes] never logs one, and every [send] writes a whole
    frame, four bytes of length and a payload that is not empty; so do
    both callers of [send]. *)
Theorem marshal_never_fails (g : Globals) (msgText : string) (w : World) :
  snd (json.MarshalString msgText) = None
  /\ msgTextToBytes g msgText w = (fst (json.MarshalString msgText), w)
  /\ (forall msg,
        send g msg w
        = (tt, put Stdout (Bytes (payloadOf (Response msg)))
                 (put Stdout
                    (Bytes (headerOf (nativeEndian g) (payloadOf (Response msg))))
                    w))
        /\ length (headerOf (nativeEndian g) (payloadOf (Response msg))) = 4%nat
        /\ payloadOf (Response msg) <> [])
  /\ (forall msg,
        rawBytes (stdout (snd (parseMessage g msg w)))
        = rawBytes (stdout w)
          ++ headerOf (nativeEndian g)
               (payloadOf (Response (respond (fst (decodeMessage g msg w)))))
          ++ payloadOf (Response (respond (fst (decodeMessage g msg w)))))
  /\ (forall action, action <> ""%string ->
        rawBytes (stdout (snd (performAction g action w)))
        = rawBytes (stdout w)
          ++ headerOf (nativeEndian g) (payloadOf action) ++ payloadOf action).
Proof.
  split; [reflexivity|]. split; [reflexivity|]. split.
  { intros msg. split; [apply send_eq|]. split; [apply PutUint32_length|].
    intros H. discriminate H. }
  split.
  - intros msg. rewrite parseMessage_eq. cbn [snd]. unfold sent.
    cbn [put stdout]. rewrite !rawBytes_app. cbn [rawBytes].
    rewrite put_rawBytes_line, !app_nil_r.
    rewrite decodeMessage_eq. cbn [snd fst].
    destruct (snd (json.Unmarshal msg zeroIncomingMessage));
      rewrite ?put_rawBytes_line, <- ?app_assoc; reflexivity.
  - intros action Ha. unfold performAction.
    apply String.eqb_neq in Ha. rewrite Ha.
    unfold bind, log.Printf, write. rewrite send_eq. cbn [snd Response Query].
    rewrite !put_rawBytes_line. unfold sent. cbn [put stdout].
    rewrite !rawBytes_app. cbn [rawBytes].
    rewrite put_rawBytes_line, !app_nil_r, <- app_assoc. reflexivity.
Qed.

(** The action "ping" goes out as a whole frame. *)
Lemma marshal_never_fails_ping :
  rawBytes (stdout (snd (performAction (mainGlobals x01 true) "ping"
                           (startWorld []))))
  = headerOf binary.LittleEndian (payloadOf "ping") ++ payloadOf "ping".
Proof.
  refine (proj2 (proj2 (proj2 (proj2
    (marshal_never_fails (mainGlobals x01 true) "" (startWorld [])))))
    "ping"%string _).
  discriminate.
Defined.

(* ================================================================== *)
(** * The HTTP endpoint *)

(** C7, as stated, fails on its last part: when the log file could not
    be opened the trace logger writes to the standard output, and an
    empty body leaves a line there. *)
Lemma empty_action_reaches_stdout :
  stdout (snd (actionEndpoint (mainGlobals x01 false) [] (startWorld [])))
  = [Line "TRACE: " "Action string is empty" []].
Proof. reflexivity. Qed.

(** C7, amended.  A body that was read without error is taken byte
    for byte as the action.  When it is not empty the message sent has
    it as query and as response, through [send], with no mapping
    applied, so the frame carries the JSON text of the body itself.
    When it is empty only the trace line is written and no frame is
    sent: the standard output is untouched unless the trace logger is
    attached to it. *)
Theorem action_endpoint_echoes (g : Globals) (body : list ReadEvent)
  (reqBody : list byte) (w : World) :
  ioutil.ReadAll body = (reqBody, None) ->
  let action := string_of_list_byte reqBody in
  let trace format args :=
    put (log.out (Trace g)) (Line (log.prefix (Trace g)) format args) in
  list_byte_of_string action = reqBody
  /\ (reqBody <> [] ->
      actionEndpoint g body w
      = (tt, trace "Message response: %s"%string [VString action]
               (trace "Message query: %s"%string [VString action]
                  (snd (send g {| Query := action; Response := action |}
                          (trace "Performing action: %s"%string [VString action] w)))))
      /\ rawBytes (stdout (snd (actionEndpoint g body w)))
         = rawBytes (stdout w)
           ++ headerOf (nativeEndian g) (payloadOf action) ++ payloadOf action)
  /\ (reqBody = [] ->
      actionEndpoint g body w = (tt, trace "Action string is empty"%string [] w)
      /\ rawBytes (stdout (snd (actionEndpoint g body w))) = rawBytes (stdout w)
      /\ (log.out (Trace g) <> Stdout ->
          stdout (snd (actionEndpoint g body w)) = stdout w)).
Proof.
  intros Hread. cbv zeta.
  split; [apply list_byte_of_string_of_list_byte|].
  unfold actionEndpoint. rewrite Hread. split.
  - intros Hne.
    assert (Ha : (string_of_list_byte reqBody =? "")%string = false).
    { apply String.eqb_neq. intros H. apply string_of_list_byte_nil in H.
      contradiction. }
    unfold performAction. rewrite Ha.
    unfold bind, log.Printf, write. rewrite send_eq. cbn [snd Query Response].
    split; [reflexivity|].
    rewrite !put_rawBytes_line. unfold sent. cbn [put stdout].
    rewrite !rawBytes_app. cbn [rawBytes].
    rewrite put_rawBytes_line, !app_nil_r, <- app_assoc. reflexivity.
  - intros He. subst reqBody. cbn.
    split; [reflexivity|]. split; [apply put_rawBytes_line|].
    intros Hout. apply put_stdout_other. exact Hout.
Qed.

(** The body "ping" is answered with the JSON string "ping", not
    "pong". *)
Lemma action_endpoint_echoes_ping :
  rawBytes (stdout (snd (actionEndpoint (mainGlobals x01 true)
                           [Data "p" (lit "ing")] (startWorld []))))
  = headerOf binary.LittleEndian (payloadOf "ping") ++ payloadOf "ping".
Proof.
  pose proof (action_endpoint_echoes (mainGlobals x01 true)
                [Data "p" (lit "ing")] (lit "ping") (startWorld []) eq_refl)
    as H.
  cbv zeta in H. destruct H as [_ [H _]].
  destruct H as [_ H]; [discriminate|].
  rewrite H. reflexivity.
Defined.

(* ================================================================== *)
(** * Reading: what a [Read] takes off the stream *)

(** The bytes a reader holds in its buffers. *)
Fixpoint readAhead (s : bufio.Reader) : nat :=
  match s with
  | [] => 0
  | b :: under => length (bufio.buffered b) + readAhead under
  end.

(** The bytes that have arrived or will arrive and that no [Read] has
    returned yet. *)
Definition unread (s : bufio.Reader) (w : World) : nat :=
  readAhead s + pending (stdin w).

(** Two worlds that differ in the input at most. *)
Definition sameOutput (w w' : World) : Prop :=
  stdout w' = stdout w /\ stderr w' = stderr w /\ logfile w' = logfile w.

Lemma len_nonneg {A} (l : list A) : 0 <= len l.
Proof. unfold len. lia. Qed.

Lemma copy_length (dst src : list byte) : length (copy dst src) = length dst.
Proof.
  unfold copy. rewrite length_app, length_firstn, length_skipn. lia.
Qed.

Lemma make_length (n : Z) : length (make n) = Z.to_nat n.
Proof. unfold make. apply repeat_length. Qed.

Lemma pending_rest (l : list byte) (rest : list ReadEvent) :
  pending match l with
          | [] => rest
          | b :: bs => Data b bs :: rest
          end = (length l + pending rest)%nat.
Proof. destruct l; reflexivity. Qed.

Lemma firstn_skipn_length {A} (k : nat) (l : list A) :
  (length (firstn k l) + length (skipn k l) = length l)%nat
  /\ length (firstn k l) = Nat.min k (length l).
Proof.
  rewrite <- length_app, firstn_skipn. split; [reflexivity|].
  apply length_firstn.
Qed.

Lemma Stdin_Read_spec (p : list byte) (w : World) :
  forall p' n e w', os.Stdin_Read p w = ((p', n, e), w') ->
    0 <= n <= len p /\ length p' = length p
    /\ Z.of_nat (pending (stdin w')) + n = Z.of_nat (pending (stdin w))
    /\ sameOutput w w'.
Proof.
  intros p' n e w' H. unfold os.Stdin_Read in H.
  destruct p as [|c p0] eqn:Hp.
  { inversion H; subst. unfold sameOutput, len. cbn. repeat split; lia. }
  cbv beta iota in H. rewrite <- Hp in *.
  assert (Hpos : (1 <= length p)%nat) by (rewrite Hp; cbn; lia).
  clear Hp c p0. rename p into q.
  destruct (stdin w) as [|[b bs|] rest] eqn:Hin.
  - inversion H; subst. rewrite Hin. unfold sameOutput, len.
    cbn. repeat split; lia.
  - remember (b :: bs) as l eqn:Hl.
    inversion H; subst p' n e w'; clear H.
    unfold sameOutput. cbn [stdin stdout stderr logfile].
    rewrite copy_length, pending_rest. unfold len.
    destruct (firstn_skipn_length (length q) l) as [H1 H2].
    assert (Hlen : length l = S (length bs)) by (subst l; reflexivity).
    cbn [pending]. repeat split; lia.
  - inversion H; subst. unfold sameOutput, len. cbn. repeat split; lia.
Qed.

(** What a [Read] returns it takes off the unread bytes, and nothing
    else: the count is between 0 and the length of the slice, the
    unread bytes shrink by the count, and nothing is written. *)
Lemma Read_spec (s : bufio.Reader) :
  forall p w p' n e s' w',
    bufio.Read s p w = ((p', n, e, s'), w') ->
    0 <= n <= len p /\ length p' = length p
    /\ Z.of_nat (unread s' w') + n = Z.of_nat (unread s w)
    /\ sameOutput w w'.
Proof.
  induction s as [|[bl bf e0] under IH]; intros p w p' n e s' w' H.
  - cbn [bufio.Read] in H. unfold bind, ret in H.
    destruct (os.Stdin_Read p w) as [[[p1 n1] e1] w1] eqn:E.
    inversion H; subst; clear H.
    apply Stdin_Read_spec in E. unfold unread. cbn [readAhead]. 
    destruct E as (? & ? & ? & ?). unfold sameOutput in *; repeat split; try tauto; try lia.
  - cbn [bufio.Read] in H. unfold ret in H.
    destruct p as [|c p0] eqn:Hp; destruct bf as [|b0 bf0] eqn:Hbf.
    + inversion H; subst. unfold unread, sameOutput, len. cbn. repeat split; lia.
    + inversion H; subst. unfold unread, sameOutput, len. cbn. repeat split; lia.
    + rewrite <- Hp in *.
      assert (Hpos : 1 <= len p) by (rewrite Hp; unfold len; cbn [List.length]; lia).
      clear Hp c p0.
      destruct e0 as [e0|].
      { inversion H; subst. unfold unread, sameOutput. cbn. repeat split; lia. }
      destruct (len p >=? bl) eqn:Hbig.
      * unfold bind in H.
        destruct (bufio.Read under p w) as [[[[p1 n1] e1] u1] w1] eqn:E.
        inversion H; subst; clear H.
        apply IH in E. unfold unread in *. cbn [readAhead bufio.buffered List.length].
        destruct E as (? & ? & ? & ?). unfold sameOutput in *; repeat split; try tauto; try lia.
      * unfold bind in H.
        destruct (bufio.Read under (make bl) w) as [[[[buf n1] e1] u1] w1] eqn:E.
        apply IH in E. destruct E as (Hn & Hbuf & Hun & Hout).
        rewrite make_length in Hbuf. unfold len in Hn. rewrite make_length in Hn.
        destruct (n1 =? 0) eqn:Hz.
        { apply Z.eqb_eq in Hz. inversion H; subst; clear H.
          unfold unread in *. cbn [readAhead bufio.buffered List.length].
          unfold sameOutput in *; repeat split; try tauto; try lia. }
        apply Z.eqb_neq in Hz. inversion H; subst; clear H.
        unfold unread in *. cbn [readAhead bufio.buffered].
        rewrite copy_length.
        destruct (firstn_skipn_length (length p) (firstn (Z.to_nat n1) buf)) as [H1 H2].
        assert (Hgot : length (firstn (Z.to_nat n1) buf) = Z.to_nat n1).
        { rewrite length_firstn. lia. }
        unfold len in *. cbn [List.length].
        unfold sameOutput in *; repeat split; try tauto; try lia.
    + rewrite <- Hp in *.
      clear Hp c p0. rewrite <- Hbf in *. clear Hbf b0 bf0.
      inversion H; subst; clear H.
      unfold unread, sameOutput. cbn [readAhead bufio.buffered].
      rewrite copy_length.
      destruct (firstn_skipn_length (length p) bf) as [H1 H2].
      unfold len. repeat split; try lia.
Qed.

Lemma unread_stdin (s : bufio.Reader) (w w' : World) :
  stdin w' = stdin w -> unread s w' = unread s w.
Proof. unfold unread. intros H. rewrite H. reflexivity. Qed.

Lemma readMessageLength_stdin g lengthBytes w :
  stdin (snd (readMessageLength g lengthBytes w)) = stdin w.
Proof.
  unfold readMessageLength, bind, whenSome, log.Printf, write, ret.
  destruct (binary.Read lengthBytes (nativeEndian g) 0) as [l [e|]];
    cbn [snd]; rewrite ?put_stdin; reflexivity.
Qed.

Lemma decodeMessage_stdin g msg w :
  stdin (snd (decodeMessage g msg w)) = stdin w.
Proof.
  rewrite decodeMessage_eq. cbn [snd].
  destruct (snd (json.Unmarshal msg zeroIncomingMessage));
    rewrite ?put_stdin; reflexivity.
Qed.

Lemma parseMessage_stdin g msg w :
  stdin (snd (parseMessage g msg w)) = stdin w.
Proof.
  rewrite parseMessage_eq. cbn [snd]. unfold sent.
  rewrite !put_stdin. apply decodeMessage_stdin.
Qed.

(** The world in which the body of the loop makes its [Read] of the
    content: the size has been traced, and the warning logged when the
    size is beyond [bufferSize]. *)
Definition announced (g : Globals) (lengthNum : Z) (w : World) : World :=
  let w1 := put (log.out (Trace g))
              (Line (log.prefix (Trace g)) "Message size in bytes: %v"
                 [VInt lengthNum]) w in
  if lengthNum >? bufferSize then
    put (log.out (Error g))
      (Line (log.prefix (Error g))
         "Message size of %d exceeds buffer size of %d. Message will be truncated and is unlikely to unmarshal to JSON."
         [VInt lengthNum; VInt bufferSize]) w1
  else w1.

Lemma announced_stdin g n w : stdin (announced g n w) = stdin w.
Proof.
  unfold announced. destruct (n >? bufferSize); rewrite ?put_stdin; reflexivity.
Qed.

(** The body of the loop, step by step. *)
Lemma readBody_eq g s lengthBytes w :
  readBody g s lengthBytes w
  = let '(lengthNum, w0) := readMessageLength g lengthBytes w in
    let '((content, _, err, s'), w2) :=
      bufio.Read s (make lengthNum) (announced g lengthNum w0) in
    match err with
    | Some io.ErrFailed =>
        (inr (Exited 1),
         put (log.out (Error g))
           (Line (log.prefix (Error g)) "" [VError (ErrIO io.ErrFailed)]) w2)
    | _ => (inl s', snd (parseMessage g content w2))
    end.
Proof.
  unfold readBody, bind.
  destruct (readMessageLength g lengthBytes w) as [lengthNum w0].
  unfold log.Printf, Fatal, log.Print, write, ret, announced.
  destruct (lengthNum >? bufferSize); cbv beta iota zeta;
    (destruct (bufio.Read s (make lengthNum) _) as [[[[content n] err] s'] w2];
     destruct err as [[|]|]; try reflexivity;
     destruct (parseMessage g content w2) as [[] w3]; reflexivity).
Qed.

Lemma readBody_unread g s lengthBytes w s' w' :
  readBody g s lengthBytes w = (inl s', w') ->
  (unread s' w' <= unread s w)%nat.
Proof.
  rewrite readBody_eq.
  destruct (readMessageLength g lengthBytes w) as [lengthNum w0] eqn:El.
  destruct (bufio.Read s (make lengthNum) (announced g lengthNum w0))
    as [[[[content n] err] s1] w2] eqn:Er.
  apply Read_spec in Er. destruct Er as (Hn & _ & Hun & _).
  assert (Hw0 : stdin w0 = stdin w).
  { pose proof (readMessageLength_stdin g lengthBytes w) as H.
    rewrite El in H. exact H. }
  rewrite (unread_stdin s w (announced g lengthNum w0)) in Hun
    by (rewrite announced_stdin; exact Hw0).
  intros H.
  assert (Hs : s' = s1 /\ stdin w' = stdin w2).
  { destruct err as [[|]|]; inversion H; subst;
      (split; [reflexivity | apply parseMessage_stdin]). }
  destruct Hs as [-> Hw']. rewrite (unread_stdin s1 w2 w' Hw'). lia.
Qed.

(** With more fuel than there are unread bytes the loop ends by
    itself: every round takes at least one byte. *)
Lemma readLoop_fuel g (fuel : nat) :
  forall s lengthBytes w,
    (unread s w < fuel)%nat ->
    fst (readLoop g fuel s lengthBytes w) = Returned
    \/ fst (readLoop g fuel s lengthBytes w) = Exited 1.
Proof.
  induction fuel as [|fuel IH]; intros s lengthBytes w Hf; [lia|].
  cbn [readLoop]. unfold bind.
  destruct (bufio.Read s lengthBytes w) as [[[[lb b] err] s1] w1] eqn:Er.
  apply Read_spec in Er. destruct Er as (Hb & _ & Hun & _).
  destruct (0 <? b) eqn:Hpos; [|left; reflexivity].
  apply Z.ltb_lt in Hpos.
  destruct err as [e|]; [left; reflexivity|].
  destruct (readBody g s1 lb w1) as [[s2|out] w2] eqn:Eb.
  - apply readBody_unread in Eb. apply IH. lia.
  - rewrite readBody_eq in Eb.
    destruct (readMessageLength g lb w1) as [lengthNum w0].
    destruct (bufio.Read s1 (make lengthNum) (announced g lengthNum w0))
      as [[[[content n] err] s3] w3].
    destruct err as [[|]|]; inversion Eb; subst. right. reflexivity.
Qed.

(** [read] comes back: the fuel it gives its loop is never used up.
    It returns once a [Read] of a header gives no byte or an error, or
    the process exits with status 1 on a failed [Read] of a content. *)
Theorem read_returns (g : Globals) (w : World) :
  fst (read g w) = Returned \/ fst (read g w) = Exited 1.
Proof.
  unfold read, bind, log.Printf, log.Print, write, ret.
  set (w1 := put _ _ w).
  set (s := bufio.NewReaderSize (bufio.NewReader []) bufferSize).
  pose proof (readLoop_fuel g (S (pending (stdin w1))) s (make 4) w1) as H.
  assert (Hs : unread s w1 = pending (stdin w1)) by reflexivity.
  specialize (H ltac:(lia)).
  destruct (readLoop g (S (pending (stdin w1))) s (make 4) w1) as [out w2].
  cbn [fst] in H. destruct H as [-> | ->]; [left | right]; reflexivity.
Qed.

(* ================================================================== *)
(** * The stdio loop on whole frames *)

(** One [Read] event holding the given bytes (none for no bytes). *)
Definition chunk (l : list byte) : list ReadEvent :=
  match l with
  | [] => []
  | b :: bs => [Data b bs]
  end.

(** A frame: the length header, then the payload. *)
Definition frame (order : binary.ByteOrder) (payload : list byte) : list byte :=
  headerOf order payload ++ payload.

(** The pieces [a], then those of [rest], with [a] glued to the first
    of [rest] when [joined]. *)
Definition glue (joined : bool) (a : list byte) (rest : list (list byte))
  : list (list byte) :=
  match joined, rest with
  | true, r :: rs => (a ++ r) :: rs
  | _, _ => a :: rest
  end.

(** Two frames as the input delivers them when no header and no
    payload is split between two reads: each of the three places
    between the four pieces either is or is not a boundary between two
    [Read] events. *)
Definition delivered (j1 j2 j3 : bool) (h1 p1 h2 p2 : list byte)
  : list ReadEvent :=
  flat_map chunk (glue j1 h1 (glue j2 p1 (glue j3 h2 [p2]))).

Lemma envelope_hello_bytes :
  envelope "hello"
  = "{"%byte :: x22 :: lit "query" ++ x22 :: ":"%byte :: x22 :: lit "hello"
      ++ [x22; "}"%byte].
Proof. reflexivity. Qed.

(** Whole deliveries.  With the two frames of the queries "hello" and
    "zzz" on the input, in that order and each header and payload
    delivered whole, [read] writes exactly two frames, the JSON strings "goodbye" and
    "42", each behind a prefix that decodes to the length of its
    payload; it then finds the end of the input, traces that the input
    is closed and returns.  This holds in both byte orders and wherever
    the loggers write; when neither logger is attached to the standard
    output, the four writes of the two frames are all that is there. *)
Theorem two_frames_answered (g : Globals) (j1 j2 j3 : bool) :
  let order := nativeEndian g in
  let input :=
    delivered j1 j2 j3
      (headerOf order (envelope "hello")) (envelope "hello")
      (headerOf order (envelope "zzz")) (envelope "zzz") in
  let r := read g (startWorld input) in
  let goodbye := payloadOf "goodbye" in
  let answer := payloadOf "42" in
  fst r = Returned
  /\ stdin (snd r) = []
  /\ rawBytes (stdout (snd r)) = frame order goodbye ++ frame order answer
  /\ fst (readMessageLength g (headerOf order goodbye) (snd r)) = len goodbye
  /\ fst (readMessageLength g (headerOf order answer) (snd r)) = len answer
  /\ (log.out (Trace g) <> Stdout -> log.out (Error g) <> Stdout ->
      stdout (snd r)
      = [Bytes (headerOf order goodbye); Bytes goodbye;
         Bytes (headerOf order answer); Bytes answer])
  /\ (exists before,
        match log.out (Trace g) with
        | Stdout => stdout (snd r)
        | Stderr => stderr (snd r)
        | LogFile => logfile (snd r)
        end = before ++ [Line (log.prefix (Trace g)) "" [VString "Stdin closed."]]).
Proof.
  destruct g as [[tout tprefix] [eout eprefix] order].
  cbv zeta. cbn [nativeEndian Trace Error log.out log.prefix].
  destruct order, j1, j2, j3, tout, eout.
  all: do 5 (split; [vm_compute; reflexivity|]).
  all: split;
    [ intros H1 H2;
      first [ exfalso; apply H1; reflexivity
            | exfalso; apply H2; reflexivity
            | vm_compute; reflexivity ]
    | match goal with
      | |- exists before, ?l = _ => exists (removelast l)
      end; vm_compute; reflexivity ].
Qed.

(* ================================================================== *)
(** * The stdio loop on a header that comes in pieces *)

(** The readers [read] sets up: a buffer of [bufferSize] bytes over one
    of the default size over [os.Stdin]. *)
Definition stdinReader : bufio.Reader :=
  bufio.NewReaderSize (bufio.NewReader []) bufferSize.

(** C8 fails on the code.  The input ends after two bytes, [05 00].
    The [Read] of the header returns these two bytes and no error, so
    the loop is entered: the four bytes of [lengthBytes], two of them
    never read, are decoded as the length 5, a content of five zero
    bytes is made up, and a frame "42" is written in answer, before
    the loop finds the end of the input. *)
Lemma partial_header_is_decoded :
  let g := mainGlobals x01 true in
  let r := read g (startWorld [Data x05 [x00]]) in
  bufio.Read stdinReader (make 4) (startWorld [Data x05 [x00]])
  = (([x05; x00; x00; x00], 2, None, stdinReader), startWorld [])
  /\ fst r = Returned
  /\ stdout (snd r)
     = [Bytes (headerOf binary.LittleEndian (payloadOf "42"));
        Bytes (payloadOf "42")]
  /\ logfile (snd r)
     = [Line "TRACE: " "IO buffer reader created with buffer size of %v."
          [VInt 8192];
        Line "TRACE: " "Message size in bytes: %v" [VInt 5];
        Line "ERROR: " "Unable to unmarshal json to struct: %v"
          [VError (ErrUnmarshal (json.ESyntax
             {| json.msg := json.InvalidCharacter x00
                              "looking for beginning of value";
                json.Offset := 1 |}))];
        Line "TRACE: " "Message received: %s"
          [VBytes [x00; x00; x00; x00; x00]];
        Line "TRACE: " "" [VString "Stdin closed."]].
Proof. cbv zeta. repeat split; vm_compute; reflexivity. Qed.

(** The two frames of the queries "hello" and "zzz", one after the
    other, as a little-endian peer writes them: 40 bytes. *)
Definition twoFrames : list byte :=
  frame binary.LittleEndian (envelope "hello")
  ++ frame binary.LittleEndian (envelope "zzz").

(** C6 fails on the code.  The input holds exactly the two frames, and
    its first read delivers two bytes of the first header, the second
    read the 38 bytes that follow.  The [Read] of the header returns
    the two bytes and no error, the header is decoded as 17 all the
    same, and the content read next starts with the two bytes left of
    the header: it is no JSON and is answered "42".  The four bytes
    taken for the second header are the last two of the first payload
    and the first two of the real header; they decode to 1015074, the
    rest of the input is read as a part of that content, and it is
    answered "42" too.  [read] returns with two frames "42" written,
    not "goodbye" and "42". *)
Lemma split_header_misframes :
  let g := mainGlobals x01 true in
  let input := chunk (firstn 2 twoFrames) ++ chunk (skipn 2 twoFrames) in
  let r := read g (startWorld input) in
  let answer := payloadOf "42" in
  len twoFrames = 40
  /\ ioutil.ReadAll input = (twoFrames, None)
  /\ bufio.Read stdinReader (make 4) (startWorld input)
     = (([x11; x00; x00; x00], 2, None, stdinReader),
        startWorld (chunk (skipn 2 twoFrames)))
  /\ fst r = Returned
  /\ stdin (snd r) = []
  /\ stdout (snd r)
     = [Bytes (headerOf binary.LittleEndian answer); Bytes answer;
        Bytes (headerOf binary.LittleEndian answer); Bytes answer]
  /\ nth 1 (logfile (snd r)) (Bytes [])
     = Line "TRACE: " "Message size in bytes: %v" [VInt 17]
  /\ nth 4 (logfile (snd r)) (Bytes [])
     = Line "TRACE: " "Message size in bytes: %v" [VInt 1015074]
  /\ rawBytes (stdout (snd r))
     <> frame binary.LittleEndian (payloadOf "goodbye")
        ++ frame binary.LittleEndian answer.
Proof.
  cbv zeta. do 8 (split; [vm_compute; reflexivity|]).
  vm_compute. discriminate.
Qed.

(** With no byte left at all, the loop is not entered: nothing is
    decoded and nothing is written but the two trace lines. *)
Lemma end_of_input_closes (g : Globals) :
  read g (startWorld [])
  = (Returned,
     put (log.out (Trace g))
       (Line (log.prefix (Trace g)) "" [VString "Stdin closed."])
       (put (log.out (Trace g))
          (Line (log.prefix (Trace g))
             "IO buffer reader created with buffer size of %v." [VInt 8192])
          (startWorld []))).
Proof. destruct g as [[[] tp] e o]; reflexivity. Qed.

(* ================================================================== *)
(** * The stdio loop on a frame larger than the buffer *)

(** A well-formed message of 8193 bytes: the query "ping", then
    spaces up to the closing brace. *)
Definition oversizePing : list byte :=
  lit "{" ++ payloadOf "query" ++ lit ":" ++ payloadOf "ping"
    ++ repeat " "%byte (Z.to_nat 8177) ++ lit "}".


Lemma readMessageLength_nonzero g lengthBytes w :
  fst (readMessageLength g lengthBytes w) <> 0 ->
  snd (readMessageLength g lengthBytes w) = w.
Proof.
  unfold readMessageLength, binary.Read, bind, whenSome, ret.
  destruct lengthBytes as [|b l]; [intros H; contradiction H; reflexivity|].
  destruct (length (b :: l) <? 4)%nat;
    [intros H; contradiction H; reflexivity | reflexivity].
Qed.

Lemma len_make (n : Z) : 0 <= n -> len (make n) = n.
Proof. intros H. unfold len. rewrite make_length. lia. Qed.

(** The one [Read] of a large content, whatever the reader holds.  For
    a frame whose decoded length is beyond [bufferSize], the body of
    the loop logs the warning and then makes one [Read] into a slice of
    the whole declared length.  That [Read]
    returns between 0 and the declared length many bytes and takes
    exactly those off the unread input, so whatever else belongs to the
    payload stays there; when the reader has bytes buffered, it returns
    these, up to the declared length, and does not touch the input.
    The content handed on always has the declared length. *)
Theorem oversize_frame_single_read (g : Globals) (s : bufio.Reader)
  (lengthBytes : list byte) (w : World) :
  let lengthNum := fst (readMessageLength g lengthBytes w) in
  bufferSize < lengthNum ->
  exists content n err s' w',
    bufio.Read s (make lengthNum)
      (put (log.out (Error g))
         (Line (log.prefix (Error g))
            "Message size of %d exceeds buffer size of %d. Message will be truncated and is unlikely to unmarshal to JSON."
            [VInt lengthNum; VInt bufferSize])
         (put (log.out (Trace g))
            (Line (log.prefix (Trace g)) "Message size in bytes: %v"
               [VInt lengthNum]) w))
    = ((content, n, err, s'), w')
    /\ readBody g s lengthBytes w
       = match err with
         | Some io.ErrFailed =>
             (inr (Exited 1),
              put (log.out (Error g))
                (Line (log.prefix (Error g)) ""
                   [VError (ErrIO io.ErrFailed)]) w')
         | _ => (inl s', snd (parseMessage g content w'))
         end
    /\ len content = lengthNum
    /\ 0 <= n <= lengthNum
    /\ Z.of_nat (unread s' w') + n = Z.of_nat (unread s w)
    /\ (forall top under,
          s = top :: under -> bufio.buffered top <> [] ->
          n = Z.min lengthNum (len (bufio.buffered top))
          /\ stdin w' = stdin w).
Proof.
  cbv zeta. intros Hbig.
  assert (Hpos : 0 < fst (readMessageLength g lengthBytes w))
    by (unfold bufferSize in Hbig; lia).
  pose proof (readMessageLength_nonzero g lengthBytes w ltac:(lia)) as Hw.
  pose proof (readBody_eq g s lengthBytes w) as Hbody.
  destruct (readMessageLength g lengthBytes w) as [lengthNum w0].
  cbn [fst snd] in *. subst w0.
  unfold announced in Hbody.
  replace (lengthNum >? bufferSize) with true in Hbody
    by (symmetry; apply Z.gtb_lt; exact Hbig).
  match type of Hbody with
  | context [bufio.Read s (make lengthNum) ?w1] => set (warned := w1) in *
  end.
  destruct (bufio.Read s (make lengthNum) warned)
    as [[[[content n] err] s'] w'] eqn:Er.
  exists content, n, err, s', w'.
  split; [reflexivity|]. split; [exact Hbody|].
  pose proof (Read_spec _ _ _ _ _ _ _ _ Er) as (Hn & Hlen & Hun & _).
  rewrite len_make in Hn by lia.
  assert (Hin : stdin warned = stdin w)
    by (unfold warned; rewrite !put_stdin; reflexivity).
  rewrite (unread_stdin s w warned Hin) in Hun.
  split.
  { unfold len. rewrite Hlen, make_length. lia. }
  split; [exact Hn|]. split; [exact Hun|].
  intros [bl bf e] under -> Hbf. cbn [bufio.buffered] in *.
  cbn [bufio.Read] in Er.
  destruct (make lengthNum) as [|c p] eqn:Hp.
  { pose proof (make_length lengthNum) as Hm. rewrite Hp in Hm.
    cbn [List.length] in Hm. lia. }
  destruct bf as [|b0 bf0] eqn:Hb; [contradiction Hbf; reflexivity|].
  unfold ret in Er. inversion Er; subst n w'.
  rewrite <- Hp, len_make by lia. split; [reflexivity | exact Hin].
Qed.

(** The 8193-byte message, its header already read: the one [Read]
    returns at most 8193 bytes, and here the message itself. *)
Lemma oversize_frame_single_read_8193 :
  exists n,
    0 <= n <= 8193
    /\ fst (fst (fst (fst
         (bufio.Read stdinReader (make 8193)
            (announced (mainGlobals x01 true) 8193
               (startWorld (chunk oversizePing))))))) = oversizePing.
Proof.
  destruct (oversize_frame_single_read (mainGlobals x01 true) stdinReader
              (headerOf binary.LittleEndian oversizePing)
              (startWorld (chunk oversizePing)))
    as (content & n & err & s' & w' & Hr & _ & _ & Hn & _).
  { vm_compute. reflexivity. }
  exists n. split.
  - exact Hn.
  - vm_compute. reflexivity.
Defined.

(* ================================================================== *)
(** * Further properties of the functions *)

(** ** Reads that take a whole event *)
(** The world with its input replaced. *)
Definition withStdin (w : World) (input : list ReadEvent) : World :=
  {| stdin := input; stdout := stdout w; stderr := stderr w;
     logfile := logfile w |}.

Lemma stdinReader_eq :
  stdinReader
  = [ {| bufio.bufLen := 8192; bufio.buffered := []; bufio.rerr := None |};
      {| bufio.bufLen := 4096; bufio.buffered := []; bufio.rerr := None |} ].
Proof. reflexivity. Qed.

Lemma copy_whole (dst src : list byte) :
  (length src <= length dst)%nat ->
  copy dst src = src ++ skipn (length src) dst.
Proof.
  intros H. unfold copy. rewrite firstn_all2 by exact H. reflexivity.
Qed.

Lemma make_cons (n : Z) : 0 < n -> exists l, make n = x00 :: l.
Proof.
  intros H. unfold make. destruct (Z.to_nat n) as [|k] eqn:E; [lia|].
  eexists. reflexivity.
Qed.

(** A [Read] of the readers of [read], nothing buffered, when the next
    event holds no more bytes than the slice: the whole event is
    returned, and nothing stays buffered. *)
Lemma Stdin_Read_whole (p : list byte) (w : World) b bs rest :
  p <> [] ->
  stdin w = Data b bs :: rest ->
  (length (b :: bs) <= length p)%nat ->
  os.Stdin_Read p w
  = ((copy p (b :: bs), len (b :: bs), None), withStdin w rest).
Proof.
  intros Hp Hin Hfit. unfold os.Stdin_Read.
  destruct p as [|c p0]; [contradiction Hp; reflexivity|].
  rewrite Hin, skipn_all2, firstn_all2 by exact Hfit. reflexivity.
Qed.

(** The two ways a buffered reader with nothing buffered and no error
    kept serves a slice that is not empty. *)
Lemma Read_direct (bl : Z) (under : bufio.Reader) (p : list byte) (w : World) :
  p <> [] -> (len p >=? bl) = true ->
  bufio.Read ({| bufio.bufLen := bl; bufio.buffered := [];
                 bufio.rerr := None |} :: under) p w
  = let '((p', n, e, under'), w') := bufio.Read under p w in
    ((p', n, e, {| bufio.bufLen := bl; bufio.buffered := [];
                   bufio.rerr := None |} :: under'), w').
Proof.
  intros Hp Hbig. destruct p as [|c p0]; [contradiction Hp; reflexivity|].
  cbn [bufio.Read]. rewrite Hbig. unfold bind, ret.
  destruct (bufio.Read under (c :: p0) w) as [[[[p' n] e] u'] w'].
  reflexivity.
Qed.

Lemma Read_fill (bl : Z) (under : bufio.Reader) (p : list byte) (w : World)
  buf n e under' w' :
  p <> [] -> (len p >=? bl) = false ->
  bufio.Read under (make bl) w = ((buf, n, e, under'), w') ->
  n <> 0 ->
  bufio.Read ({| bufio.bufLen := bl; bufio.buffered := [];
                 bufio.rerr := None |} :: under) p w
  = ((copy p (firstn (Z.to_nat n) buf),
      Z.min (len p) (len (firstn (Z.to_nat n) buf)), None,
      {| bufio.bufLen := bl;
         bufio.buffered := skipn (length p) (firstn (Z.to_nat n) buf);
         bufio.rerr := e |} :: under'), w').
Proof.
  intros Hp Hbig Hr Hn. destruct p as [|c p0]; [contradiction Hp; reflexivity|].
  cbn [bufio.Read]. rewrite Hbig. unfold bind, ret. rewrite Hr.
  apply Z.eqb_neq in Hn. rewrite Hn. reflexivity.
Qed.

Lemma Read_nothing (bl : Z) (under : bufio.Reader) (p : list byte) (w : World)
  buf e under' w' :
  p <> [] -> (len p >=? bl) = false ->
  bufio.Read under (make bl) w = ((buf, 0, e, under'), w') ->
  bufio.Read ({| bufio.bufLen := bl; bufio.buffered := [];
                 bufio.rerr := None |} :: under) p w
  = ((p, 0, e, {| bufio.bufLen := bl; bufio.buffered := [];
                  bufio.rerr := None |} :: under'), w').
Proof.
  intros Hp Hbig Hr. destruct p as [|c p0]; [contradiction Hp; reflexivity|].
  cbn [bufio.Read]. rewrite Hbig. unfold bind, ret. rewrite Hr.
  reflexivity.
Qed.

Lemma Read_stdin (p : list byte) (w : World) :
  bufio.Read [] p w
  = let '((p', n, e), w') := os.Stdin_Read p w in ((p', n, e, []), w').
Proof.
  cbn [bufio.Read]. unfold bind, ret.
  destruct (os.Stdin_Read p w) as [[[p' n] e] w']. reflexivity.
Qed.

(** A [Read] of the readers of [read], nothing buffered, when the next
    event holds no more bytes than the slice: the whole event is
    returned, and nothing stays buffered. *)
Lemma Read_whole_event (p : list byte) (w : World) b bs rest :
  p <> [] ->
  stdin w = Data b bs :: rest ->
  (length (b :: bs) <= length p)%nat ->
  bufio.Read stdinReader p w
  = ((copy p (b :: bs), len (b :: bs), None, stdinReader), withStdin w rest).
Proof.
  intros Hp Hin Hfit. rewrite stdinReader_eq.
  destruct (len p >=? 8192) eqn:Hbig.
  - rewrite Read_direct by assumption.
    rewrite Read_direct
      by (try assumption; apply Z.geb_le; apply Z.geb_le in Hbig; lia).
    rewrite Read_stdin, (Stdin_Read_whole p w b bs rest) by assumption.
    reflexivity.
  - destruct (make_cons 8192 ltac:(lia)) as [m Hm].
    pose proof (make_length 8192) as Hml.
    assert (Hsmall : (length (b :: bs) <= length (make 8192))%nat).
    { rewrite Z.geb_leb in Hbig. apply Z.leb_gt in Hbig.
      unfold len in Hbig. lia. }
    assert (Hne : make 8192 <> []) by (rewrite Hm; discriminate).
    assert (Hinner :
      bufio.Read [ {| bufio.bufLen := 4096; bufio.buffered := [];
                      bufio.rerr := None |} ] (make 8192) w
      = ((copy (make 8192) (b :: bs), len (b :: bs), None,
          [ {| bufio.bufLen := 4096; bufio.buffered := [];
               bufio.rerr := None |} ]), withStdin w rest)).
    { rewrite Read_direct
        by (try assumption; apply Z.geb_le; unfold len; lia).
      rewrite Read_stdin, (Stdin_Read_whole _ w b bs rest) by assumption.
      reflexivity. }
    rewrite (Read_fill 8192 _ p w _ _ _ _ _ Hp Hbig Hinner)
      by (unfold len; cbn [List.length]; lia).
    assert (Hgot : firstn (Z.to_nat (len (b :: bs)))
                     (copy (make 8192) (b :: bs))
                   = b :: bs).
    { unfold len. rewrite Nat2Z.id, copy_whole by exact Hsmall.
      rewrite firstn_app, firstn_all, Nat.sub_diag, firstn_0, app_nil_r.
      reflexivity. }
    rewrite Hgot, (skipn_all2 (b :: bs)) by exact Hfit.
    replace (Z.min (len p) (len (b :: bs))) with (len (b :: bs))
      by (unfold len; lia).
    reflexivity.
Qed.

Lemma Stdin_Read_none (p : list byte) (w : World) :
  p <> [] ->
  os.Stdin_Read p w
  = match stdin w with
    | [] => ((p, 0, Some io.EOF), w)
    | Failure :: rest => ((p, 0, Some io.ErrFailed), withStdin w rest)
    | Data b bs :: rest => os.Stdin_Read p w
    end.
Proof.
  intros Hp. destruct p as [|c p0]; [contradiction Hp; reflexivity|].
  unfold os.Stdin_Read. destruct (stdin w) as [|[b bs|] rest]; reflexivity.
Qed.

(** At the end of the input the same [Read] returns [io.EOF], and on a
    failing read of the input the failure; in both cases no byte. *)
Lemma Read_no_event (p : list byte) (w : World) :
  p <> [] ->
  match stdin w with
  | [] =>
      bufio.Read stdinReader p w = ((p, 0, Some io.EOF, stdinReader), w)
  | Failure :: rest =>
      bufio.Read stdinReader p w
      = ((p, 0, Some io.ErrFailed, stdinReader), withStdin w rest)
  | Data _ _ :: _ => True
  end.
Proof.
  intros Hp. rewrite stdinReader_eq.
  destruct (make_cons 8192 ltac:(lia)) as [m Hm].
  pose proof (make_length 8192) as Hml.
  assert (Hne : make 8192 <> []) by (rewrite Hm; discriminate).
  destruct (stdin w) as [|[b bs|] rest] eqn:Hin; [| exact I |].
  - destruct (len p >=? 8192) eqn:Hbig.
    + rewrite Read_direct by assumption.
      rewrite Read_direct
        by (try assumption; apply Z.geb_le; apply Z.geb_le in Hbig; lia).
      rewrite Read_stdin, Stdin_Read_none, Hin by assumption. reflexivity.
    + erewrite Read_nothing; [reflexivity | assumption | assumption |].
      rewrite Read_direct
        by (try assumption; apply Z.geb_le; unfold len; lia).
      rewrite Read_stdin, Stdin_Read_none, Hin by assumption. reflexivity.
  - destruct (len p >=? 8192) eqn:Hbig.
    + rewrite Read_direct by assumption.
      rewrite Read_direct
        by (try assumption; apply Z.geb_le; apply Z.geb_le in Hbig; lia).
      rewrite Read_stdin, Stdin_Read_none, Hin by assumption. reflexivity.
    + erewrite Read_nothing; [reflexivity | assumption | assumption |].
      rewrite Read_direct
        by (try assumption; apply Z.geb_le; unfold len; lia).
      rewrite Read_stdin, Stdin_Read_none, Hin by assumption. reflexivity.
Qed.

(* ------------------------------------------------------------------ *)
(** ** Frames delivered apart *)

Lemma Read_empty_slice (w : World) :
  bufio.Read stdinReader [] w = (([], 0, None, stdinReader), w).
Proof. reflexivity. Qed.

Lemma copy_same_length (dst src : list byte) :
  length src = length dst -> copy dst src = src.
Proof.
  intros H. rewrite copy_whole by lia.
  rewrite skipn_all2 by lia. apply app_nil_r.
Qed.

(** The response [parseMessage] answers a payload with. *)
Definition answerTo (payload : list byte) : string :=
  Response (respond (fst (json.Unmarshal payload zeroIncomingMessage))).

Lemma parseMessage_rawBytes g msg w :
  rawBytes (stdout (snd (parseMessage g msg w)))
  = rawBytes (stdout w) ++ frame (nativeEndian g) (payloadOf (answerTo msg)).
Proof.
  rewrite parseMessage_eq. cbn [snd]. unfold sent.
  cbn [put stdout]. rewrite !rawBytes_app. cbn [rawBytes].
  rewrite put_rawBytes_line, !app_nil_r.
  rewrite decodeMessage_eq. cbn [snd fst]. unfold frame, answerTo.
  destruct (snd (json.Unmarshal msg zeroIncomingMessage));
    rewrite ?put_rawBytes_line, <- ?app_assoc; reflexivity.
Qed.

Lemma announced_rawBytes g n w :
  rawBytes (stdout (announced g n w)) = rawBytes (stdout w).
Proof.
  unfold announced. destruct (n >? bufferSize);
    rewrite ?put_rawBytes_line; reflexivity.
Qed.

Lemma headerOf_four order payload :
  exists b0 b1 b2 b3, headerOf order payload = [b0; b1; b2; b3].
Proof. destruct order; do 4 eexists; reflexivity. Qed.

(** Frames that arrive header by header and payload by payload: for
    each payload one event with the four bytes of its header and, when
    the payload is not empty, one event with the payload. *)
Definition deliveredApart (order : binary.ByteOrder)
  (payloads : list (list byte)) : list ReadEvent :=
  flat_map (fun p => chunk (headerOf order p) ++ chunk p) payloads.

(** The body of the loop on a frame that arrives this way. *)
Lemma readBody_apart g (p : list byte) (w : World) rest :
  len p < 2 ^ 32 ->
  stdin w = chunk p ++ rest ->
  exists w',
    readBody g stdinReader (headerOf (nativeEndian g) p) w
    = (inl stdinReader, w')
    /\ stdin w' = rest
    /\ rawBytes (stdout w')
       = rawBytes (stdout w) ++ frame (nativeEndian g) (payloadOf (answerTo p)).
Proof.
  intros Hlen Hin. rewrite readBody_eq, readMessageLength_header.
  rewrite Z.mod_small by (pose proof (len_nonneg p); lia).
  destruct p as [|b bs] eqn:Ep.
  - change (len []) with 0. change (make 0) with (@nil byte).
    rewrite Read_empty_slice.
    eexists. split; [reflexivity|]. split.
    + rewrite parseMessage_stdin, announced_stdin. exact Hin.
    + rewrite parseMessage_rawBytes, announced_rawBytes. reflexivity.
  - rewrite <- Ep in *. cbn [chunk app] in Hin.
    assert (Hp : len p = Z.of_nat (S (length bs))) by (rewrite Ep; reflexivity).
    assert (Hne : make (len p) <> []).
    { destruct (make_cons (len p) ltac:(lia)) as [m Hm]. rewrite Hm.
      discriminate. }
    assert (Hfit : length (b :: bs) = length (make (len p))).
    { rewrite make_length, <- Ep. unfold len. lia. }
    rewrite (Read_whole_event (make (len p)) (announced g (len p) w) b bs rest)
      by (try exact Hne;
          try (rewrite announced_stdin, Hin, Ep; reflexivity); lia).
    rewrite copy_same_length by exact Hfit. rewrite <- Ep.
    eexists. split; [reflexivity|]. split.
    + rewrite parseMessage_stdin. reflexivity.
    + rewrite parseMessage_rawBytes. cbn [withStdin stdout].
      rewrite announced_rawBytes. reflexivity.
Qed.

Lemma readLoop_apart g (payloads : list (list byte)) :
  forall (fuel : nat) (lengthBytes : list byte) (w : World),
    length lengthBytes = 4%nat ->
    (length payloads < fuel)%nat ->
    Forall (fun p => len p < 2 ^ 32) payloads ->
    stdin w = deliveredApart (nativeEndian g) payloads ->
    fst (readLoop g fuel stdinReader lengthBytes w) = Returned
    /\ stdin (snd (readLoop g fuel stdinReader lengthBytes w)) = []
    /\ rawBytes (stdout (snd (readLoop g fuel stdinReader lengthBytes w)))
       = rawBytes (stdout w)
         ++ flat_map (fun p => frame (nativeEndian g) (payloadOf (answerTo p)))
              payloads.
Proof.
  induction payloads as [|p ps IH]; intros fuel lb w Hlb Hfuel Hall Hin;
    (destruct fuel as [|fuel]; [cbn in Hfuel; lia|]).
  - cbn [readLoop]. unfold bind.
    assert (Hne : lb <> []) by (destruct lb; [discriminate Hlb | discriminate]).
    pose proof (Read_no_event lb w Hne) as Hr. cbn in Hin. rewrite Hin in Hr.
    rewrite Hr. cbn. rewrite app_nil_r. repeat split. exact Hin.
  - cbn [readLoop]. unfold bind.
    assert (Hne : lb <> []) by (destruct lb; [discriminate Hlb | discriminate]).
    destruct (headerOf_four (nativeEndian g) p) as (b0 & b1 & b2 & b3 & Hh).
    cbn [deliveredApart flat_map] in Hin. rewrite Hh in Hin.
    cbn [chunk app] in Hin.
    rewrite (Read_whole_event lb w b0 [b1; b2; b3] _ Hne Hin)
      by (rewrite Hlb; cbn; lia).
    rewrite copy_same_length by (rewrite Hlb; reflexivity).
    change (0 <? len [b0; b1; b2; b3]) with true. cbv beta iota.
    inversion Hall as [|? ? Hp Hps]; subst.
    rewrite <- Hh.
    destruct (readBody_apart g p
                (withStdin w (chunk p ++ deliveredApart (nativeEndian g) ps))
                (deliveredApart (nativeEndian g) ps) Hp eq_refl)
      as (w' & Hb & Hin' & Hraw).
    unfold deliveredApart in Hb at 1. rewrite Hb.
    assert (Hh4 : length (headerOf (nativeEndian g) p) = 4%nat)
      by (rewrite Hh; reflexivity).
    destruct (IH fuel (headerOf (nativeEndian g) p) w' Hh4
                ltac:(cbn in Hfuel; lia) Hps Hin') as (H1 & H2 & H3).
    split; [exact H1|]. split; [exact H2|].
    rewrite H3, Hraw. cbn [withStdin stdout flat_map].
    rewrite <- app_assoc. reflexivity.
Qed.

(** [read], with its loop set apart. *)
Lemma read_eq g w :
  read g w
  = let w1 := put (log.out (Trace g))
                (Line (log.prefix (Trace g))
                   "IO buffer reader created with buffer size of %v."
                   [VInt 8192]) w in
    let r := readLoop g (S (pending (stdin w1))) stdinReader (make 4) w1 in
    match fst r with
    | Returned =>
        (Returned,
         put (log.out (Trace g))
           (Line (log.prefix (Trace g)) "" [VString "Stdin closed."]) (snd r))
    | out => (out, snd r)
    end.
Proof.
  unfold read, bind, log.Printf, log.Print, write, ret. cbv zeta.
  change (bufio.NewReaderSize (bufio.NewReader []) bufferSize) with stdinReader.
  change (bufio.Size stdinReader) with 8192.
  destruct (readLoop g _ stdinReader (make 4) _) as [[| |] w2]; reflexivity.
Qed.

Lemma pending_app (l1 l2 : list ReadEvent) :
  pending (l1 ++ l2) = (pending l1 + pending l2)%nat.
Proof.
  induction l1 as [|[b bs|] l IH]; cbn [pending app]; rewrite ?IH; lia.
Qed.

Lemma pending_deliveredApart order payloads :
  (length payloads <= pending (deliveredApart order payloads))%nat.
Proof.
  induction payloads as [|p ps IH]; [cbn; lia|].
  cbn [deliveredApart flat_map length]. rewrite !pending_app.
  destruct (headerOf_four order p) as (b0 & b1 & b2 & b3 & Hh).
  rewrite Hh. cbn [chunk pending List.length].
  unfold deliveredApart in IH. lia.
Qed.

(** Frames delivered apart are all answered.  When the input holds, for
    each of a list of payloads of fewer than [2^32] bytes, its header
    in one event and the payload in the next, [read] hands every
    payload whole to [parseMessage], writes the frames of the answers
    in the same order, finds the end of the input and returns.  The
    size of a payload makes no difference, [bufferSize] included. *)
Theorem frames_delivered_apart_answered (g : Globals)
  (payloads : list (list byte)) (w : World) :
  stdin w = deliveredApart (nativeEndian g) payloads ->
  Forall (fun p => len p < 2 ^ 32) payloads ->
  fst (read g w) = Returned
  /\ stdin (snd (read g w)) = []
  /\ rawBytes (stdout (snd (read g w)))
     = rawBytes (stdout w)
       ++ flat_map (fun p => frame (nativeEndian g) (payloadOf (answerTo p)))
            payloads.
Proof.
  intros Hin Hall. rewrite read_eq. cbv zeta.
  set (w1 := put _ _ w).
  assert (Hin1 : stdin w1 = deliveredApart (nativeEndian g) payloads)
    by (unfold w1; rewrite put_stdin; exact Hin).
  destruct (readLoop_apart g payloads (S (pending (stdin w1))) (make 4) w1)
    as (H1 & H2 & H3); try assumption.
  { reflexivity. }
  { rewrite Hin1. pose proof (pending_deliveredApart (nativeEndian g) payloads).
    lia. }
  rewrite H1. cbn [fst snd].
  split; [reflexivity|]. split.
  - rewrite put_stdin. exact H2.
  - rewrite put_rawBytes_line, H3. unfold w1. rewrite put_rawBytes_line.
    reflexivity.
Qed.

(** A well-formed query and a payload that is no JSON at all, each
    after its header: answered "pong" and "42". *)
Lemma frames_delivered_apart_ping_junk :
  rawBytes (stdout (snd (read (mainGlobals x01 true)
    (startWorld (deliveredApart binary.LittleEndian
                   [envelope "ping"; lit "junk"])))))
  = frame binary.LittleEndian (payloadOf "pong")
    ++ frame binary.LittleEndian (payloadOf "42").
Proof.
  destruct (frames_delivered_apart_answered (mainGlobals x01 true)
              [envelope "ping"; lit "junk"]
              (startWorld (deliveredApart binary.LittleEndian
                             [envelope "ping"; lit "junk"])))
    as (_ & _ & H).
  - reflexivity.
  - repeat constructor.
  - rewrite H. vm_compute. reflexivity.
Defined.

(* ------------------------------------------------------------------ *)
(** ** A frame larger than the buffer, delivered whole *)



(* ------------------------------------------------------------------ *)
(** ** Reads that fail *)

(** A failure of the first read of a header ends the loop as the end
    of the input does: [read] writes its two trace lines, the second
    being "Stdin closed.", and returns.  The failure is not logged, no
    frame is sent, and what follows the failure on the input is left
    there.  (The trace lines go where the trace logger writes, which
    can be the standard output.) *)
Theorem header_failure_closes (g : Globals) (w : World)
  (rest : list ReadEvent) :
  stdin w = Failure :: rest ->
  read g w
  = (Returned,
     put (log.out (Trace g))
       (Line (log.prefix (Trace g)) "" [VString "Stdin closed."])
       (withStdin
          (put (log.out (Trace g))
             (Line (log.prefix (Trace g))
                "IO buffer reader created with buffer size of %v." [VInt 8192])
             w)
          rest)).
Proof.
  intros Hin. rewrite read_eq. cbv zeta. set (w1 := put _ _ w).
  assert (Hin1 : stdin w1 = Failure :: rest)
    by (unfold w1; rewrite put_stdin; exact Hin).
  cbn [readLoop]. unfold bind.
  pose proof (Read_no_event (make 4) w1 ltac:(discriminate)) as Hr.
  rewrite Hin1 in Hr. rewrite Hr. reflexivity.
Qed.

(** The input fails at once, with a byte behind the failure. *)
Lemma header_failure_closes_at_start :
  fst (read (mainGlobals x01 true) (startWorld [Failure; Data x01 []]))
  = Returned
  /\ stdin (snd (read (mainGlobals x01 true)
                   (startWorld [Failure; Data x01 []]))) = [Data x01 []].
Proof.
  rewrite (header_failure_closes (mainGlobals x01 true)
             (startWorld [Failure; Data x01 []]) [Data x01 []] eq_refl).
  split; reflexivity.
Defined.

Lemma Uint32_nonneg (order : binary.ByteOrder) (b : list byte) :
  0 <= binary.Uint32 order b.
Proof.
  unfold binary.Uint32. destruct order; cbv zeta;
    rewrite !Z.lor_nonneg, !Z.shiftl_nonneg; repeat split;
    apply (proj1 (Z_of_byte_range _)).
Qed.

(** A failing read of a content is fatal.  When the four bytes of a
    header arrive in one event, decode to a length that is not zero,
    and the next read of the input fails, [read] logs the failure with
    the error logger and the process exits with status 1: no frame is
    written for the message, and "Stdin closed." is not traced. *)
Theorem content_failure_exits (g : Globals) (w : World)
  (b0 b1 b2 b3 : byte) (rest : list ReadEvent) :
  stdin w = Data b0 [b1; b2; b3] :: Failure :: rest ->
  binary.Uint32 (nativeEndian g) [b0; b1; b2; b3] <> 0 ->
  read g w
  = (Exited 1,
     put (log.out (Error g))
       (Line (log.prefix (Error g)) "" [VError (ErrIO io.ErrFailed)])
       (withStdin
          (announced g (binary.Uint32 (nativeEndian g) [b0; b1; b2; b3])
             (withStdin
                (put (log.out (Trace g))
                   (Line (log.prefix (Trace g))
                      "IO buffer reader created with buffer size of %v."
                      [VInt 8192]) w)
                (Failure :: rest)))
          rest)).
Proof.
  intros Hin Hnz. rewrite read_eq. cbv zeta. set (w1 := put _ _ w).
  assert (Hin1 : stdin w1 = Data b0 [b1; b2; b3] :: Failure :: rest)
    by (unfold w1; rewrite put_stdin; exact Hin).
  cbn [readLoop]. unfold bind.
  rewrite (Read_whole_event (make 4) w1 b0 [b1; b2; b3] _
             ltac:(discriminate) Hin1) by (vm_compute; lia).
  rewrite copy_same_length by reflexivity.
  change (0 <? len [b0; b1; b2; b3]) with true. cbv beta iota.
  rewrite readBody_eq, readMessageLength_four.
  set (L := binary.Uint32 (nativeEndian g) [b0; b1; b2; b3]) in *.
  assert (HL : 0 < L).
  { pose proof (Uint32_nonneg (nativeEndian g) [b0; b1; b2; b3]).
    unfold L. lia. }
  assert (Hne : make L <> []).
  { destruct (make_cons L HL) as [m Hm]. rewrite Hm. discriminate. }
  pose proof (Read_no_event (make L)
                (announced g L (withStdin w1 (Failure :: rest))) Hne) as Hr.
  rewrite announced_stdin in Hr. cbn [withStdin stdin] in Hr.
  rewrite Hr. reflexivity.
Qed.

(** A header announcing five bytes, then a failure. *)
Lemma content_failure_exits_after_header :
  fst (read (mainGlobals x01 true)
         (startWorld [Data x05 [x00; x00; x00]; Failure])) = Exited 1.
Proof.
  rewrite (content_failure_exits (mainGlobals x01 true)
             (startWorld [Data x05 [x00; x00; x00]; Failure])
             x05 x00 x00 x00 [] eq_refl).
  - reflexivity.
  - vm_compute. discriminate.
Defined.

(* ------------------------------------------------------------------ *)
(** ** What the loop can write *)

(** The three responses of [respond]. *)
Definition isAnswer (r : string) : Prop :=
  r = "pong"%string \/ r = "goodbye"%string \/ r = "42"%string.

Lemma answerTo_isAnswer (payload : list byte) : isAnswer (answerTo payload).
Proof.
  unfold answerTo, respond, isAnswer.
  destruct (_ =? "ping")%string; [left; reflexivity|].
  destruct (_ =? "hello")%string; [right; left | right; right]; reflexivity.
Qed.

(** The writes [send] makes for a list of responses: for each a header
    and a payload. *)
Definition framesOf (order : binary.ByteOrder) (responses : list string)
  : list Written :=
  flat_map (fun r => [Bytes (headerOf order (payloadOf r));
                      Bytes (payloadOf r)]) responses.

Lemma rawBytes_framesOf order responses :
  rawBytes (framesOf order responses)
  = flat_map (fun r => frame order (payloadOf r)) responses.
Proof.
  induction responses as [|r rs IH]; [reflexivity|].
  cbn [framesOf flat_map app rawBytes]. unfold framesOf in IH.
  rewrite IH. unfold frame. rewrite <- app_assoc. reflexivity.
Qed.

Lemma framesOf_app order rs1 rs2 :
  framesOf order (rs1 ++ rs2) = framesOf order rs1 ++ framesOf order rs2.
Proof. apply flat_map_app. Qed.

(** [w'] is [w] after the frames of [responses] have been sent and any
    number of lines logged: the raw bytes on the standard output have
    grown by these frames, and so has the standard output itself when
    no logger writes there. *)
Definition wrote (g : Globals) (responses : list string) (w w' : World)
  : Prop :=
  rawBytes (stdout w')
  = rawBytes (stdout w) ++ rawBytes (framesOf (nativeEndian g) responses)
  /\ (log.out (Trace g) <> Stdout -> log.out (Error g) <> Stdout ->
      stdout w' = stdout w ++ framesOf (nativeEndian g) responses).

Lemma wrote_refl g w : wrote g [] w w.
Proof. split; intros; cbn; rewrite app_nil_r; reflexivity. Qed.

Lemma wrote_trans g rs1 rs2 w1 w2 w3 :
  wrote g rs1 w1 w2 -> wrote g rs2 w2 w3 -> wrote g (rs1 ++ rs2) w1 w3.
Proof.
  intros [H1 H1'] [H2 H2']. split.
  - rewrite H2, H1, framesOf_app, rawBytes_app, app_assoc. reflexivity.
  - intros Ht He. rewrite H2', H1', framesOf_app, app_assoc by assumption.
    reflexivity.
Qed.

Lemma wrote_same g w w' : stdout w' = stdout w -> wrote g [] w w'.
Proof.
  intros H. split; intros; rewrite H; cbn; rewrite app_nil_r; reflexivity.
Qed.

Lemma wrote_trace g f a w :
  wrote g [] w (put (log.out (Trace g)) (Line (log.prefix (Trace g)) f a) w).
Proof.
  split.
  - rewrite put_rawBytes_line. cbn. rewrite app_nil_r. reflexivity.
  - intros Ht _. rewrite put_stdout_other by exact Ht. cbn.
    rewrite app_nil_r. reflexivity.
Qed.

Lemma wrote_error g f a w :
  wrote g [] w (put (log.out (Error g)) (Line (log.prefix (Error g)) f a) w).
Proof.
  split.
  - rewrite put_rawBytes_line. cbn. rewrite app_nil_r. reflexivity.
  - intros _ He. rewrite put_stdout_other by exact He. cbn.
    rewrite app_nil_r. reflexivity.
Qed.

Lemma wrote_sent g r w : wrote g [r] w (sent g r w).
Proof.
  unfold sent. split.
  - cbn [put stdout framesOf flat_map app]. rewrite <- app_assoc.
    rewrite rawBytes_app. reflexivity.
  - intros _ _. cbn [put stdout framesOf flat_map app].
    rewrite <- app_assoc. reflexivity.
Qed.

Lemma wrote_readMessageLength g lengthBytes w :
  wrote g [] w (snd (readMessageLength g lengthBytes w)).
Proof.
  unfold readMessageLength, bind, whenSome, log.Printf, write, ret.
  destruct (binary.Read lengthBytes (nativeEndian g) 0) as [l [e|]]; cbn [snd].
  - apply wrote_error.
  - apply wrote_refl.
Qed.

Lemma wrote_announced g n w : wrote g [] w (announced g n w).
Proof.
  unfold announced. destruct (n >? bufferSize).
  - eapply (wrote_trans g [] []); [apply wrote_trace | apply wrote_error].
  - apply wrote_trace.
Qed.

Lemma wrote_parseMessage g msg w :
  wrote g [answerTo msg] w (snd (parseMessage g msg w)).
Proof.
  rewrite parseMessage_eq. cbn [snd].
  assert (Hd : wrote g [] w (snd (decodeMessage g msg w))).
  { rewrite decodeMessage_eq. cbn [snd].
    destruct (snd (json.Unmarshal msg zeroIncomingMessage));
      [apply wrote_error | apply wrote_refl]. }
  apply (wrote_trans g [] [_] _ _ _ Hd).
  eapply (wrote_trans g [] [_]); [apply wrote_trace|].
  rewrite decodeMessage_eq. cbn [fst]. apply wrote_sent.
Qed.

Lemma wrote_Read s p w :
  forall g, wrote g [] w (snd (bufio.Read s p w)).
Proof.
  intros g. destruct (bufio.Read s p w) as [[[[p' n] e] s'] w'] eqn:Er.
  apply Read_spec in Er. destruct Er as (_ & _ & _ & Hout & _).
  apply wrote_same. exact Hout.
Qed.

(** The loop, whatever the input and the fuel: what it writes are
    frames of answers, at most one for each byte it takes off the
    input. *)
Lemma readLoop_wrote g (fuel : nat) :
  forall s lengthBytes w,
  exists responses,
    Forall isAnswer responses
    /\ (length responses <= unread s w)%nat
    /\ wrote g responses w (snd (readLoop g fuel s lengthBytes w)).
Proof.
  induction fuel as [|fuel IH]; intros s lb w.
  { exists []. split; [constructor|]. split; [cbn; lia|]. apply wrote_refl. }
  cbn [readLoop]. unfold bind.
  pose proof (wrote_Read s lb w g) as Hw1.
  destruct (bufio.Read s lb w) as [[[[lb1 b] err] s1] w1] eqn:Er.
  cbn [snd] in Hw1.
  apply Read_spec in Er. destruct Er as (Hb & _ & Hun & _).
  assert (Hstop : exists responses,
             Forall isAnswer responses
             /\ (length responses <= unread s w)%nat
             /\ wrote g responses w w1).
  { exists []. split; [constructor|]. split; [cbn; lia|]. exact Hw1. }
  destruct (0 <? b) eqn:Hpos; [|exact Hstop].
  apply Z.ltb_lt in Hpos.
  destruct err as [e|]; [exact Hstop|]. clear Hstop.
  rewrite readBody_eq.
  pose proof (wrote_readMessageLength g lb1 w1) as Hw0.
  pose proof (readMessageLength_stdin g lb1 w1) as Hs0.
  destruct (readMessageLength g lb1 w1) as [lengthNum w0]. cbn [snd] in *.
  pose proof (wrote_announced g lengthNum w0) as Hwa.
  pose proof (wrote_Read s1 (make lengthNum) (announced g lengthNum w0) g)
    as Hw2.
  destruct (bufio.Read s1 (make lengthNum) (announced g lengthNum w0))
    as [[[[content n] err] s2] w2] eqn:Er2.
  cbn [snd] in Hw2.
  apply Read_spec in Er2. destruct Er2 as (Hn & _ & Hun2 & _).
  rewrite (unread_stdin s1 w1 (announced g lengthNum w0)) in Hun2
    by (rewrite announced_stdin; exact Hs0).
  assert (Hto2 : wrote g [] w w2).
  { apply (wrote_trans g [] [] _ _ _ Hw1).
    apply (wrote_trans g [] [] _ _ _ Hw0).
    apply (wrote_trans g [] [] _ _ _ Hwa). exact Hw2. }
  assert (Hgo : exists responses,
             Forall isAnswer responses
             /\ (length responses <= unread s w)%nat
             /\ wrote g responses w
                  (snd (let (_, w3) := parseMessage g content w2 in
                        readLoop g fuel s2 lb1 w3))).
  { pose proof (wrote_parseMessage g content w2) as Hw3.
    pose proof (parseMessage_stdin g content w2) as Hs3.
    destruct (parseMessage g content w2) as [[] w3]. cbn [snd] in *.
    destruct (IH s2 lb1 w3) as (rs & Hrs & Hlen & Hw4).
    exists (answerTo content :: rs). split.
    { constructor; [apply answerTo_isAnswer | exact Hrs]. }
    split.
    { rewrite (unread_stdin s2 w2 w3 Hs3) in Hlen. cbn [List.length]. lia. }
    apply (wrote_trans g [] (_ :: rs) _ _ _ Hto2).
    apply (wrote_trans g [_] rs _ _ _ Hw3). exact Hw4. }
  destruct err as [[|]|].
  - destruct (parseMessage g content w2) as [[] w3]. exact Hgo.
  - exists []. split; [constructor|]. split; [cbn; lia|].
    cbn [snd]. apply (wrote_trans g [] [] _ _ _ Hto2). apply wrote_error.
  - destruct (parseMessage g content w2) as [[] w3]. exact Hgo.
Qed.

(* ------------------------------------------------------------------ *)
(** ** What [send] writes is JSON *)

(** The scanner inside a string literal, as an automaton on the six
    states it goes through there: the state after a byte, [None] when
    the byte ends the literal or is refused. *)
Definition strStep (st : json.stepFn) (c : byte) : option json.stepFn :=
  match st with
  | json.StInString =>
      if c == json.quote then None
      else if c == json.backslash then Some json.StInStringEsc
      else if byte_lt c " " then None
      else Some json.StInString
  | json.StInStringEsc =>
      if (c == "b") || (c == "f") || (c == "n") || (c == "r") || (c == "t")
         || (c == json.backslash) || (c == "/") || (c == json.quote)
      then Some json.StInString
      else if c == "u" then Some json.StInStringEscU
      else None
  | json.StInStringEscU =>
      if json.isHex c then Some json.StInStringEscU1 else None
  | json.StInStringEscU1 =>
      if json.isHex c then Some json.StInStringEscU12 else None
  | json.StInStringEscU12 =>
      if json.isHex c then Some json.StInStringEscU123 else None
  | json.StInStringEscU123 =>
      if json.isHex c then Some json.StInString else None
  | _ => None
  end.

Fixpoint strRun (st : json.stepFn) (l : list byte) : option json.stepFn :=
  match l with
  | [] => Some st
  | c :: rest =>
      match strStep st c with
      | Some st' => strRun st' rest
      | None => None
      end
  end.

Lemma strRun_app st l1 l2 :
  strRun st (l1 ++ l2)
  = match strRun st l1 with
    | Some st' => strRun st' l2
    | None => None
    end.
Proof.
  revert st. induction l1 as [|c l IH]; intros st; [reflexivity|].
  cbn [strRun app]. destruct (strStep st c); [apply IH | reflexivity].
Qed.

(** The scanner in state [st], with the parse stack [ps], before the
    end of the top-level value and with no error so far. *)
Definition inStr (st : json.stepFn) (ps : list json.parse) (s : json.scanner)
  : Prop :=
  json.step s = st /\ json.parseState s = ps
  /\ json.endTop s = false /\ json.err s = None.

Lemma strStep_call st ps s c st' :
  inStr st ps s -> strStep st c = Some st' ->
  forall rest, exists s',
    inStr st' ps s'
    /\ json.checkValidFrom s (c :: rest) = json.checkValidFrom s' rest.
Proof.
  intros (Hs & Hp & Ht & He) Hc rest.
  cbn [json.checkValidFrom]. unfold json.call. cbn [json.step]. rewrite Hs.
  unfold strStep in Hc.
  destruct st; try discriminate Hc;
    unfold json.stateInString, json.stateInStringEsc, json.stateInStringEscHex;
    repeat match type of Hc with
           | (if ?b then _ else _) = _ => destruct b; try discriminate Hc
           end;
    injection Hc as <-;
    (eexists; split; [|reflexivity]); unfold inStr; cbn; auto.
Qed.

Lemma strRun_checkValid (l : list byte) :
  forall st ps s st',
    inStr st ps s -> strRun st l = Some st' ->
    forall rest, exists s',
      inStr st' ps s'
      /\ json.checkValidFrom s (l ++ rest) = json.checkValidFrom s' rest.
Proof.
  induction l as [|c l IH]; intros st ps s st' Hs Hr rest.
  - injection Hr as <-. exists s. split; [exact Hs | reflexivity].
  - cbn [strRun] in Hr. destruct (strStep st c) as [st1|] eqn:Hc;
      [|discriminate Hr].
    destruct (strStep_call st ps s c st1 Hs Hc (l ++ rest)) as (s1 & Hs1 & E1).
    destruct (IH st1 ps s1 st' Hs1 Hr rest) as (s2 & Hs2 & E2).
    exists s2. split; [exact Hs2|]. cbn [app]. rewrite E1. exact E2.
Qed.

Lemma inStr_close (s : json.scanner) :
  inStr json.StInString [] s -> json.checkValidFrom s [json.quote] = None.
Proof.
  intros (Hs & Hp & Ht & He).
  cbn [json.checkValidFrom]. unfold json.call at 1. cbn [json.step]. rewrite Hs.
  unfold json.stateInString.
  change (json.quote == json.quote) with true. cbv beta iota.
  unfold json.eof. cbn [json.err json.endTop json.setStep]. rewrite He, Ht.
  unfold json.call. cbn [json.step]. unfold json.stateEndValue.
  cbn [json.parseState]. rewrite Hp. reflexivity.
Qed.

(** Byte by byte: what [appendString] copies and what it writes for
    what it does not copy keeps the automaton in a literal. *)
Lemma strRun_safe (b : byte) :
  (Z_of_byte b <? utf8.RuneSelf) = true -> json.htmlSafe b = true ->
  strRun json.StInString [b] = Some json.StInString.
Proof. destruct b; intros H1 H2; try reflexivity; discriminate. Qed.

Lemma strRun_escape (b : byte) :
  (Z_of_byte b <? utf8.RuneSelf) = true -> json.htmlSafe b = false ->
  strRun json.StInString (json.escape b) = Some json.StInString.
Proof. destruct b; intros H1 H2; try reflexivity; discriminate. Qed.

Lemma strRun_high (b : byte) :
  (Z_of_byte b <? utf8.RuneSelf) = false ->
  strRun json.StInString [b] = Some json.StInString.
Proof. destruct b; intros H; try reflexivity; discriminate. Qed.

Lemma strRun_all_high (l : list byte) :
  Forall (fun b => (Z_of_byte b <? utf8.RuneSelf) = false) l ->
  strRun json.StInString l = Some json.StInString.
Proof.
  induction 1 as [|b l Hb _ IH]; [reflexivity|].
  change (b :: l) with ([b] ++ l). rewrite strRun_app, strRun_high by exact Hb.
  exact IH.
Qed.

Lemma DecodeRune_high (b : byte) (l : list byte) (c : Z) (size : nat) :
  (Z_of_byte b <? utf8.RuneSelf) = false ->
  utf8.DecodeRune (firstn 4 (b :: l)) = (c, size) ->
  Forall (fun x => (Z_of_byte x <? utf8.RuneSelf) = false)
    (firstn size (b :: l)).
Proof.
  intros Hb Hd. unfold utf8.RuneSelf in *.
  assert (Hhigh : forall x lo, 128 <= lo -> (Z_of_byte x <? lo) = false ->
                               (Z_of_byte x <? 128) = false).
  { intros x lo Hlo H. apply Z.ltb_ge in H. apply Z.ltb_ge. lia. }
  destruct l as [|b1 [|b2 [|b3 l']]]; cbn [firstn] in Hd;
    unfold utf8.DecodeRune in Hd; cbv zeta in Hd; rewrite Hb in Hd;
    cbn [nth List.length] in Hd;
    repeat match type of Hd with
           | context [if ?x then _ else _] => destruct x eqn:?
           end;
    injection Hd as <- <-; cbn [firstn];
    repeat match goal with
           | H : (_ || _) = false |- _ =>
               apply orb_false_iff in H; destruct H
           end;
    repeat (constructor; try assumption);
    try (eapply Hhigh; [|eassumption]; lia).
  all: repeat match goal with
              | H : context [if ?x then _ else _] |- _ => destruct x
              end;
       (eapply Hhigh; [|eassumption]; lia).
Qed.

Lemma appendStringLoop_strRun (fuel : nat) :
  forall src,
    strRun json.StInString (json.appendStringLoop fuel src)
    = Some json.StInString.
Proof.
  induction fuel as [|fuel IH]; intros [|b rest]; try reflexivity.
  cbn [json.appendStringLoop].
  destruct (Z_of_byte b <? utf8.RuneSelf) eqn:Hb.
  - rewrite strRun_app.
    destruct (json.htmlSafe b) eqn:Hs;
      [rewrite strRun_safe | rewrite strRun_escape]; try assumption; apply IH.
  - destruct (utf8.DecodeRune (firstn 4 (b :: rest))) as [c size] eqn:Hd.
    destruct ((c =? utf8.RuneError) && (size =? 1)%nat).
    { change (strRun json.StInString
                ((json.backslash :: list_byte_of_string "ufffd")
                 ++ json.appendStringLoop fuel rest) = Some json.StInString).
      rewrite strRun_app. apply IH. }
    destruct ((c =? 8232) || (c =? 8233)) eqn:Hc.
    { change (strRun json.StInString
                ((json.backslash :: list_byte_of_string "u202")
                 ++ [json.hex (Z.land c 15)]
                 ++ json.appendStringLoop fuel (skipn size (b :: rest)))
              = Some json.StInString).
      rewrite !strRun_app.
      apply orb_true_iff in Hc.
      destruct Hc as [Hc|Hc]; apply Z.eqb_eq in Hc; subst c; apply IH. }
    rewrite strRun_app, (strRun_all_high _ (DecodeRune_high _ _ _ _ Hb Hd)).
    apply IH.
Qed.

Lemma payloadOf_checkValid (response : string) :
  json.checkValid (payloadOf response) = None.
Proof.
  unfold payloadOf, json.appendString, json.checkValid.
  cbn [json.checkValidFrom].
  match goal with
  | |- context [json.call ?s0 ?c] =>
      set (s1 := fst (json.call s0 c));
      change (json.call s0 c) with (s1, json.scanBeginLiteral)
  end.
  assert (Hcall : inStr json.StInString [] s1) by (repeat split).
  cbv beta iota.
  destruct (strRun_checkValid _ _ _ s1 _ Hcall
              (appendStringLoop_strRun
                 (length (list_byte_of_string response))
                 (list_byte_of_string response))
              [json.quote]) as (s2 & Hs2 & E).
  rewrite E. apply inStr_close. exact Hs2.
Qed.

(** Every payload is a JSON text.  Whatever string it is given, what
    [msgTextToBytes] returns, and [send] writes after the length, is
    accepted by the JSON scanner: one string literal, with every byte
    that may not stand in one escaped. *)
Theorem send_payload_is_json (g : Globals) (msgText : string) (w : World) :
  json.checkValid (fst (msgTextToBytes g msgText w)) = None.
Proof. rewrite msgTextToBytes_eq. apply payloadOf_checkValid. Qed.

Lemma decodeByte_skipped (l : list byte) :
  forall d, json.at_ d = json.Skipped ->
    json.target (fold_left json.decodeByte l d) = json.target d
    /\ json.savedError (fold_left json.decodeByte l d) = json.savedError d.
Proof.
  induction l as [|c l IH]; intros d Hd; [split; reflexivity|].
  cbn [fold_left].
  assert (Hstep : json.at_ (json.decodeByte d c) = json.Skipped
                  /\ json.target (json.decodeByte d c) = json.target d
                  /\ json.savedError (json.decodeByte d c) = json.savedError d).
  { unfold json.decodeByte. destruct (json.call (json.scan d) c) as [post op].
    rewrite Hd. repeat split. }
  destruct Hstep as (H1 & H2 & H3).
  destruct (IH _ H1) as [H4 H5]. rewrite H4, H5. split; assumption.
Qed.

(** What this program sends it does not accept.  A payload written by
    [send] is a JSON string, not an object: given to [decodeMessage] it
    is logged as a type error and leaves the query empty, so that
    [parseMessage] answers any of this program's own frames with
    "42". *)
Theorem sent_payload_answered_default (g : Globals) (response : string)
  (w : World) :
  decodeMessage g (payloadOf response) w
  = ({| iQuery := "" |},
     put (log.out (Error g))
       (Line (log.prefix (Error g)) "Unable to unmarshal json to struct: %v"
          [VError (ErrUnmarshal (json.EUnmarshalType "string"))]) w)
  /\ answerTo (payloadOf response) = "42"%string.
Proof.
  assert (Hu : json.Unmarshal (payloadOf response) zeroIncomingMessage
               = ({| iQuery := "" |}, Some (json.EUnmarshalType "string"))).
  { unfold json.Unmarshal.
    pose proof (payloadOf_checkValid response) as Hv. rewrite Hv.
    unfold payloadOf, json.appendString. cbn [fold_left].
    set (d1 := json.decodeByte _ json.quote).
    assert (Hd1 : json.at_ d1 = json.Skipped) by reflexivity.
    destruct (decodeByte_skipped
                (json.appendStringLoop
                   (length (list_byte_of_string response))
                   (list_byte_of_string response)
                 ++ [json.quote]) d1 Hd1) as [Ht He].
    rewrite Ht, He. reflexivity. }
  split.
  - rewrite decodeMessage_eq, Hu. reflexivity.
  - unfold answerTo. rewrite Hu. reflexivity.
Qed.

(* ------------------------------------------------------------------ *)
(** ** Decoding what [dataToBytes] encodes *)

(** The bytes below [utf8.RuneSelf]. *)
Definition allASCII (l : list byte) : bool :=
  forallb (fun b => Z_of_byte b <? utf8.RuneSelf) l.

(** The text of an object around the strings of its two members. *)
Definition objectOpen : list byte :=
  Eval cbv in "{"%byte :: json.appendString "query" ++ [":"%byte; json.quote].

Definition objectMiddle : list byte :=
  Eval cbv in
    ","%byte :: json.appendString "response" ++ [":"%byte; json.quote].

Definition objectClose : list byte := [json.quote; "}"%byte].

(** What [appendString] writes between the quotes. *)
Definition escaped (v : string) : list byte :=
  json.appendStringLoop (length (list_byte_of_string v))
    (list_byte_of_string v).

Lemma MarshalOutgoing_eq (msg : OutgoingMessage) :
  fst (json.MarshalOutgoing msg)
  = objectOpen ++ escaped (Query msg) ++ [json.quote]
    ++ objectMiddle ++ escaped (Response msg) ++ objectClose.
Proof.
  unfold json.MarshalOutgoing. cbn [fst].
  unfold json.appendString at 2 4. fold (escaped (Query msg)).
  fold (escaped (Response msg)).
  change (json.appendString "query")
    with (json.quote :: list_byte_of_string "query" ++ [json.quote]).
  change (json.appendString "response")
    with (json.quote :: list_byte_of_string "response" ++ [json.quote]).
  cbn [app list_byte_of_string]. rewrite <- !app_assoc. reflexivity.
Qed.

Lemma escaped_strRun (v : string) :
  strRun json.StInString (escaped v) = Some json.StInString.
Proof. apply appendStringLoop_strRun. Qed.

(** *** The scanner over the object *)

Lemma scan_objectOpen (rest : list byte) :
  exists s,
    inStr json.StInString [json.parseObjectValue] s
    /\ json.checkValidFrom json.reset (objectOpen ++ rest)
       = json.checkValidFrom s rest.
Proof.
  eexists. split; [|cbn; reflexivity]. repeat split.
Qed.

Lemma scan_objectMiddle (s : json.scanner) (rest : list byte) :
  inStr json.StInString [json.parseObjectValue] s ->
  exists s',
    inStr json.StInString [json.parseObjectValue] s'
    /\ json.checkValidFrom s (json.quote :: objectMiddle ++ rest)
       = json.checkValidFrom s' rest.
Proof.
  destruct s as [st et ps e n]. unfold inStr.
  cbn [json.step json.parseState json.endTop json.err].
  intros (-> & -> & -> & ->).
  eexists. split; [|cbn; reflexivity]. repeat split.
Qed.

Lemma scan_objectClose (s : json.scanner) :
  inStr json.StInString [json.parseObjectValue] s ->
  json.checkValidFrom s objectClose = None.
Proof.
  destruct s as [st et ps e n]. unfold inStr.
  cbn [json.step json.parseState json.endTop json.err].
  intros (-> & -> & -> & ->). reflexivity.
Qed.

Lemma MarshalOutgoing_checkValid (msg : OutgoingMessage) :
  json.checkValid (fst (json.MarshalOutgoing msg)) = None.
Proof.
  rewrite MarshalOutgoing_eq. unfold json.checkValid.
  destruct (scan_objectOpen
              (escaped (Query msg) ++ [json.quote] ++ objectMiddle
               ++ escaped (Response msg) ++ objectClose)) as (s1 & H1 & E1).
  rewrite E1.
  destruct (strRun_checkValid _ _ _ s1 _ H1
              (escaped_strRun (Query msg))
              ([json.quote] ++ objectMiddle
               ++ escaped (Response msg) ++ objectClose)) as (s2 & H2 & E2).
  rewrite E2.
  destruct (scan_objectMiddle s2 (escaped (Response msg) ++ objectClose) H2)
    as (s3 & H3 & E3).
  cbn [app] in E3 |- *. rewrite E3.
  destruct (strRun_checkValid _ _ _ s3 _ H3
              (escaped_strRun (Response msg))
              objectClose) as (s4 & H4 & E4).
  rewrite E4. apply scan_objectClose. exact H4.
Qed.

(** *** The decoder over the object *)

Lemma strStep_decode st ps s c st' :
  inStr st ps s -> strStep st c = Some st' ->
  exists s',
    inStr st' ps s'
    /\ json.call s c = (s', json.scanContinue)
    /\ match json.step s with
       | json.StInString => c == json.quote
       | _ => false
       end = false.
Proof.
  destruct s as [st0 et ps0 e n]. unfold inStr.
  cbn [json.step json.parseState json.endTop json.err].
  intros (-> & -> & -> & ->) Hc.
  exists {| json.step := st'; json.endTop := false; json.parseState := ps;
            json.err := None; json.bytes := n |}.
  split; [repeat split|].
  unfold json.call. cbn [json.step].
  unfold strStep in Hc.
  destruct st; try discriminate Hc;
    unfold json.stateInString, json.stateInStringEsc, json.stateInStringEscHex;
    repeat match type of Hc with
           | (if ?b then _ else _) = _ => destruct b; try discriminate Hc
           end;
    injection Hc as <-; split; reflexivity.
Qed.

Definition decoding (s : json.scanner) (p : json.position)
  (t : IncomingMessage) (e : option json.UnmarshalError) : json.decodeState :=
  {| json.scan := s; json.at_ := p; json.target := t; json.savedError := e |}.

Lemma decode_value (l : list byte) :
  forall st ps s st' raw t e,
    inStr st ps s -> strRun st l = Some st' ->
    exists s',
      inStr st' ps s'
      /\ fold_left json.decodeByte l (decoding s (json.InValue raw) t e)
         = decoding s' (json.InValue (rev l ++ raw)) t e.
Proof.
  induction l as [|c l IH]; intros st ps s st' raw t e Hs Hr.
  - injection Hr as <-. exists s. split; [exact Hs | reflexivity].
  - cbn [strRun] in Hr. destruct (strStep st c) as [st1|] eqn:Hc;
      [|discriminate Hr].
    destruct (strStep_decode st ps s c st1 Hs Hc) as (s1 & Hs1 & E1 & C1).
    destruct (IH st1 ps s1 st' (c :: raw) t e Hs1 Hr) as (s2 & Hs2 & E2).
    exists s2. split; [exact Hs2|].
    cbn [fold_left rev]. rewrite <- app_assoc. cbn [app]. rewrite <- E2.
    f_equal. unfold json.decodeByte, decoding.
    cbn [json.scan json.at_ json.target json.savedError].
    rewrite E1, C1. reflexivity.
Qed.

Lemma decode_other_value (l : list byte) :
  forall st s st' t e,
    inStr st [json.parseObjectValue] s -> strRun st l = Some st' ->
    exists s',
      inStr st' [json.parseObjectValue] s'
      /\ fold_left json.decodeByte l (decoding s (json.InObject false) t e)
         = decoding s' (json.InObject false) t e.
Proof.
  induction l as [|c l IH]; intros st s st' t e Hs Hr.
  - injection Hr as <-. exists s. split; [exact Hs | reflexivity].
  - cbn [strRun] in Hr. destruct (strStep st c) as [st1|] eqn:Hc;
      [|discriminate Hr].
    destruct (strStep_decode st _ s c st1 Hs Hc) as (s1 & Hs1 & E1 & C1).
    destruct (IH st1 s1 st' t e Hs1 Hr) as (s2 & Hs2 & E2).
    exists s2. split; [exact Hs2|].
    cbn [fold_left]. rewrite <- E2.
    f_equal. unfold json.decodeByte, decoding.
    cbn [json.scan json.at_ json.target json.savedError].
    rewrite E1. destruct Hs as (_ & -> & _). reflexivity.
Qed.

Lemma decode_objectOpen (t : IncomingMessage) :
  exists s,
    inStr json.StInString [json.parseObjectValue] s
    /\ fold_left json.decodeByte objectOpen
         (decoding json.reset json.AtTop t None)
       = decoding s (json.InValue [json.quote]) t None.
Proof.
  eexists. split; [|vm_compute; reflexivity]. repeat split.
Qed.

Lemma decode_closing_quote s raw v t e :
  inStr json.StInString [json.parseObjectValue] s ->
  json.unquoteBytes (rev (json.quote :: raw)) = Some v ->
  exists s',
    inStr json.StEndValue [json.parseObjectValue] s'
    /\ json.decodeByte (decoding s (json.InValue raw) t e) json.quote
       = decoding s' (json.InObject false)
           {| iQuery := string_of_list_byte v |} e.
Proof.
  destruct s as [st0 et ps0 e0 n]. unfold inStr.
  cbn [json.step json.parseState json.endTop json.err].
  intros (-> & -> & -> & ->) Hv.
  exists {| json.step := json.StEndValue; json.endTop := false;
            json.parseState := [json.parseObjectValue];
            json.err := None; json.bytes := n |}.
  split; [repeat split|].
  unfold json.decodeByte, decoding.
  cbn [json.scan json.at_ json.target json.savedError json.step].
  change (json.quote == json.quote) with true. cbv iota.
  rewrite Hv. reflexivity.
Qed.

Lemma decode_objectMiddle s t e :
  inStr json.StEndValue [json.parseObjectValue] s ->
  exists s',
    inStr json.StInString [json.parseObjectValue] s'
    /\ fold_left json.decodeByte objectMiddle
         (decoding s (json.InObject false) t e)
       = decoding s' (json.InObject false) t e.
Proof.
  destruct s as [st0 et ps0 e0 n]. unfold inStr.
  cbn [json.step json.parseState json.endTop json.err].
  intros (-> & -> & -> & ->).
  eexists. split; [|vm_compute; reflexivity]. repeat split.
Qed.

Lemma decode_objectClose s t e :
  inStr json.StInString [json.parseObjectValue] s ->
  json.target (fold_left json.decodeByte objectClose
                 (decoding s (json.InObject false) t e)) = t
  /\ json.savedError (fold_left json.decodeByte objectClose
                        (decoding s (json.InObject false) t e)) = e.
Proof.
  destruct s as [st0 et ps0 e0 n]. unfold inStr.
  cbn [json.step json.parseState json.endTop json.err].
  intros (-> & -> & -> & ->). split; reflexivity.
Qed.

(** *** Unquoting what [appendString] quotes *)

Lemma unquoteLoop_piece (b : byte) (fuel : nat) (rest : list byte) :
  (Z_of_byte b <? utf8.RuneSelf) = true ->
  json.unquoteLoop (S fuel)
    ((if json.htmlSafe b then [b] else json.escape b) ++ rest)
  = option_map (app [b]) (json.unquoteLoop fuel rest).
Proof. destruct b; intros H; try discriminate H; reflexivity. Qed.

Lemma piece_length (b : byte) :
  (1 <= length (if json.htmlSafe b then [b] else json.escape b))%nat.
Proof.
  destruct (json.htmlSafe b); [cbn; lia|].
  unfold json.escape.
  repeat match goal with
         | |- context [if ?x then _ else _] => destruct x
         end; cbn; lia.
Qed.

Lemma escaped_length (src : list byte) :
  forall fuel, (length src <= fuel)%nat -> allASCII src = true ->
    (length src <= length (json.appendStringLoop fuel src))%nat.
Proof.
  induction src as [|b src IH]; intros fuel Hf Ha; [cbn; lia|].
  destruct fuel as [|fuel]; [cbn in Hf; lia|].
  cbn [allASCII forallb] in Ha. apply andb_true_iff in Ha.
  destruct Ha as [Hb Ha].
  cbn [json.appendStringLoop]. rewrite Hb. rewrite length_app.
  pose proof (piece_length b). cbn [length] in Hf |- *.
  specialize (IH fuel ltac:(lia) Ha). lia.
Qed.

Lemma unquoteLoop_escaped (src : list byte) :
  forall fuel fuel',
    (length src <= fuel)%nat -> (length src <= fuel')%nat ->
    allASCII src = true ->
    json.unquoteLoop fuel' (json.appendStringLoop fuel src) = Some src.
Proof.
  induction src as [|b src IH]; intros fuel fuel' Hf Hf' Ha.
  - destruct fuel, fuel'; reflexivity.
  - destruct fuel as [|fuel]; [cbn in Hf; lia|].
    destruct fuel' as [|fuel']; [cbn in Hf'; lia|].
    cbn [allASCII forallb] in Ha. apply andb_true_iff in Ha.
    destruct Ha as [Hb Ha].
    cbn [json.appendStringLoop]. rewrite Hb.
    rewrite unquoteLoop_piece by exact Hb.
    cbn [length] in Hf, Hf'.
    rewrite (IH fuel fuel') by (lia || exact Ha). reflexivity.
Qed.

Lemma unquoteBytes_escaped (v : string) :
  allASCII (list_byte_of_string v) = true ->
  json.unquoteBytes (json.quote :: escaped v ++ [json.quote])
  = Some (list_byte_of_string v).
Proof.
  intros Ha. unfold json.unquoteBytes.
  rewrite rev_app_distr. cbn [rev app].
  change ((json.quote == json.quote) && (json.quote == json.quote)) with true.
  cbv iota. rewrite rev_involutive. unfold escaped.
  apply unquoteLoop_escaped; [lia| |exact Ha].
  rewrite length_app. cbn [length].
  pose proof (escaped_length (list_byte_of_string v) _ (le_n _) Ha). lia.
Qed.

Lemma dataToBytes_eq g msg w :
  dataToBytes g msg w = (fst (json.MarshalOutgoing msg), w).
Proof. reflexivity. Qed.

Lemma Unmarshal_MarshalOutgoing (msg : OutgoingMessage) (t : IncomingMessage) :
  allASCII (list_byte_of_string (Query msg)) = true ->
  json.Unmarshal (fst (json.MarshalOutgoing msg)) t
  = ({| iQuery := Query msg |}, None).
Proof.
  intros Ha. unfold json.Unmarshal.
  rewrite MarshalOutgoing_checkValid, MarshalOutgoing_eq.
  fold (decoding json.reset json.AtTop t None).
  rewrite fold_left_app.
  destruct (decode_objectOpen t) as (s1 & H1 & E1). rewrite E1.
  rewrite fold_left_app.
  destruct (decode_value (escaped (Query msg)) _ _ s1 _ [json.quote] t None H1
              (escaped_strRun (Query msg))) as (s2 & H2 & E2).
  rewrite E2.
  rewrite fold_left_app.
  change (fold_left json.decodeByte [json.quote] ?d)
    with (json.decodeByte d json.quote).
  destruct (decode_closing_quote s2 (rev (escaped (Query msg)) ++ [json.quote])
              (list_byte_of_string (Query msg)) t None H2) as (s2' & H2' & E2').
  { cbn [rev]. rewrite rev_app_distr, rev_involutive. cbn [rev app].
    apply unquoteBytes_escaped. exact Ha. }
  rewrite E2', fold_left_app.
  destruct (decode_objectMiddle s2'
              {| iQuery := string_of_list_byte
                             (list_byte_of_string (Query msg)) |}
              None H2') as (s3 & H3 & E3).
  rewrite E3, fold_left_app.
  destruct (decode_other_value (escaped (Response msg)) _ s3 _
              {| iQuery := string_of_list_byte
                             (list_byte_of_string (Query msg)) |}
              None H3 (escaped_strRun (Response msg))) as (s4 & H4 & E4).
  rewrite E4.
  destruct (decode_objectClose s4
              {| iQuery := string_of_list_byte
                             (list_byte_of_string (Query msg)) |}
              None H4) as [Et Ee].
  rewrite Et, Ee, string_of_list_byte_of_string. reflexivity.
Qed.

(* ------------------------------------------------------------------ *)
(** ** What [read] can write, whatever the input *)

Lemma read_wrote (g : Globals) (w : World) :
  exists responses,
    Forall isAnswer responses
    /\ (length responses <= pending (stdin w))%nat
    /\ wrote g responses w (snd (read g w)).
Proof.
  rewrite read_eq. cbv zeta.
  set (w1 := put (log.out (Trace g)) _ w).
  assert (Hin : stdin w1 = stdin w) by apply put_stdin.
  destruct (readLoop_wrote g (S (pending (stdin w1))) stdinReader (make 4) w1)
    as (rs & Hrs & Hlen & Hw).
  exists rs. split; [exact Hrs|]. split.
  { unfold unread in Hlen. rewrite Hin in Hlen. exact Hlen. }
  assert (H1 : wrote g rs w
                 (snd (readLoop g (S (pending (stdin w1))) stdinReader
                         (make 4) w1))).
  { apply (wrote_trans g [] rs w w1 _ (wrote_trace g _ _ w) Hw). }
  destruct (fst (readLoop g (S (pending (stdin w1))) stdinReader (make 4) w1));
    cbn [snd]; try exact H1.
  rewrite <- (app_nil_r rs).
  apply (wrote_trans g rs [] _ _ _ H1). apply wrote_trace.
Qed.

(** [read] sends nothing but answers.  Whatever arrives on the input,
    in whatever pieces and with whatever failures, the bytes [read] has
    written to the standard output through [send] when it is over are
    whole frames, each the length and the payload of one of the three
    responses "pong", "goodbye" and "42", and there are at most as
    many of them as the input has bytes. *)
Theorem read_sends_only_answers (g : Globals) (w : World) :
  exists responses,
    Forall isAnswer responses
    /\ (length responses <= pending (stdin w))%nat
    /\ rawBytes (stdout (snd (read g w)))
       = rawBytes (stdout w)
         ++ flat_map (fun r => frame (nativeEndian g) (payloadOf r)) responses.
Proof.
  destruct (read_wrote g w) as (rs & Hrs & Hlen & Hw & _).
  exists rs. rewrite <- rawBytes_framesOf. auto.
Qed.

(** With both loggers away from the standard output, as [main] sets
    them up when the log file opens, the standard output after [read]
    is what it was followed by the frames of answers and by nothing
    else: no log line gets between the frames, whatever the input. *)
Theorem read_stdout_only_frames (g : Globals) (w : World) :
  log.out (Trace g) <> Stdout ->
  log.out (Error g) <> Stdout ->
  exists responses,
    Forall isAnswer responses
    /\ stdout (snd (read g w))
       = stdout w ++ framesOf (nativeEndian g) responses.
Proof.
  intros Ht He.
  destruct (read_wrote g w) as (rs & Hrs & _ & _ & Hw).
  exists rs. split; [exact Hrs | exact (Hw Ht He)].
Qed.

(** The loggers of [main] on the log file, and a frame for "ping"
    followed by a failure of the input. *)
Lemma read_stdout_only_frames_logfile :
  log.out (Trace (mainGlobals x01 true)) <> Stdout
  /\ log.out (Error (mainGlobals x01 true)) <> Stdout
  /\ exists responses,
       Forall isAnswer responses
       /\ stdout (snd (read (mainGlobals x01 true)
                         (startWorld
                            (chunk (frame binary.LittleEndian (envelope "ping"))
                             ++ [Failure]))))
          = stdout (startWorld
                      (chunk (frame binary.LittleEndian (envelope "ping"))
                       ++ [Failure]))
            ++ framesOf (nativeEndian (mainGlobals x01 true)) responses.
Proof.
  assert (Ht : log.out (Trace (mainGlobals x01 true)) <> Stdout)
    by discriminate.
  assert (He : log.out (Error (mainGlobals x01 true)) <> Stdout)
    by discriminate.
  split; [exact Ht|]. split; [exact He|].
  exact (read_stdout_only_frames (mainGlobals x01 true) _ Ht He).
Defined.

(* ------------------------------------------------------------------ *)
(** ** A request body that fails *)

Lemma ReadAll_failure (body : list ReadEvent) :
  In Failure body -> snd (ioutil.ReadAll body) = Some io.ErrFailed.
Proof.
  induction body as [|[b bs|] rest IH]; intros Hin.
  - destruct Hin.
  - cbn [ioutil.ReadAll]. destruct Hin as [Hin|Hin]; [discriminate Hin|].
    specialize (IH Hin). destruct (ioutil.ReadAll rest) as [more err].
    exact IH.
  - reflexivity.
Qed.

(** A body that cannot be read to its end is dropped.  When a read of
    the request body fails, however many bytes have arrived before,
    [actionEndpoint] traces the error and returns: no action is
    performed and nothing is sent. *)
Theorem action_body_failure_sends_nothing (g : Globals)
  (body : list ReadEvent) (w : World) :
  In Failure body ->
  actionEndpoint g body w
  = (tt, put (log.out (Trace g))
           (Line (log.prefix (Trace g)) "Error reading action body: %s"
              [VError (ErrIO io.ErrFailed)]) w).
Proof.
  intros Hin. unfold actionEndpoint.
  pose proof (ReadAll_failure body Hin) as H.
  destruct (ioutil.ReadAll body) as [reqBody err]. cbn [snd] in H.
  rewrite H. reflexivity.
Qed.

(** The action "ping" arrives and the next read fails. *)
Lemma action_body_failure_after_ping :
  In Failure (chunk (lit "ping") ++ [Failure])
  /\ stdout (snd (actionEndpoint (mainGlobals x01 true)
                    (chunk (lit "ping") ++ [Failure]) (startWorld [])))
     = [].
Proof.
  assert (Hin : In Failure (chunk (lit "ping") ++ [Failure])).
  { apply in_or_app. right. left. reflexivity. }
  split; [exact Hin|].
  rewrite (action_body_failure_sends_nothing (mainGlobals x01 true) _
             (startWorld []) Hin).
  reflexivity.
Defined.

(* ------------------------------------------------------------------ *)
(** ** [dataToBytes] *)

(** Whatever the two strings of the message, what [dataToBytes] returns
    is accepted by the JSON scanner: an object whose two members have
    every byte that may not stand in a string literal escaped. *)
Theorem dataToBytes_is_json (g : Globals) (msg : OutgoingMessage) (w : World) :
  json.checkValid (fst (dataToBytes g msg w)) = None.
Proof. rewrite dataToBytes_eq. apply MarshalOutgoing_checkValid. Qed.

(** [decodeMessage] reads back what [dataToBytes] writes.  For a
    message whose query is made of bytes below 128, whatever its
    response, [decodeMessage] on the bytes that [dataToBytes] returns
    gives the query, the escapes of [Marshal] undone, and logs no
    error. *)
Theorem dataToBytes_decodes (g : Globals) (msg : OutgoingMessage)
  (w w' : World) :
  allASCII (list_byte_of_string (Query msg)) = true ->
  decodeMessage g (fst (dataToBytes g msg w)) w'
  = ({| iQuery := Query msg |}, w').
Proof.
  intros Ha. rewrite dataToBytes_eq. cbn [fst]. rewrite decodeMessage_eq.
  rewrite (Unmarshal_MarshalOutgoing msg zeroIncomingMessage Ha). reflexivity.
Qed.

(** A query with bytes that [Marshal] escapes. *)
Lemma dataToBytes_decodes_escaped :
  allASCII (list_byte_of_string
           (Query {| Query := "1 < 2 & 3 > 2"; Response := "pong" |})) = true
  /\ decodeMessage (mainGlobals x01 true)
       (fst (dataToBytes (mainGlobals x01 true)
               {| Query := "1 < 2 & 3 > 2"; Response := "pong" |}
               (startWorld [])))
       (startWorld [])
     = ({| iQuery := "1 < 2 & 3 > 2" |}, startWorld []).
Proof.
  split; [reflexivity|].
  apply (dataToBytes_decodes (mainGlobals x01 true)
           {| Query := "1 < 2 & 3 > 2"; Response := "pong" |}).
  reflexivity.
Defined.
